(** * GO-SERVER: the user cache and its three HTTP handlers

    A shallow embedding of [main.go]: the process-wide [userCache]
    (a Go [map[int]User]), the [cacheMutex] guarding it, and the handlers
    [createUser], [getUser], [deleteUser] and [handleRoot].

    Handlers are written as programs over the actions they perform on the
    two globals (lock, unlock, map read, map write); the programs are run
    either alone (one request at a time) or interleaved as goroutines. *)

From Stdlib Require Import ZArith Lia Bool List Ascii String.
From stdpp Require Import gmap strings.

Set Warnings "-register-all".

Local Open Scope string_scope.
Local Open Scope Z_scope.

(** ** Go's [int] on a 64-bit platform

    The keys of [userCache] and the result of [len] are [int]s, kept as [Z]
    with the wrap-around of [+] written out. *)

Module GoInt.

Definition intSize : Z := 64.
Definition minInt : Z := - 2 ^ 63.
Definition maxInt : Z := 2 ^ 63 - 1.
Definition maxUint64 : Z := 2 ^ 64 - 1.

(** Two's complement wrap-around of a mathematical integer into [int]. *)
Definition wrap (z : Z) : Z := (z + 2 ^ 63) mod 2 ^ 64 - 2 ^ 63.

(** [a + b] on [int]. *)
Definition add (a b : Z) : Z := wrap (a + b).

Definition in_range (z : Z) : Prop := minInt <= z <= maxInt.

End GoInt.

(** ** Errors that reach the handlers *)

Inductive numerr := ErrSyntax | ErrRange.

Inductive error :=
| NumError (func num : string) (e : numerr)   (* strconv *)
| EOF                                         (* io.EOF: empty request body *)
| SyntaxError                                 (* encoding/json: not a JSON text *)
| UnmarshalTypeError (value field : string)   (* encoding/json: wrong JSON type *)
| UnsupportedTypeError                        (* encoding/json: chan, func, ... *)
| UnsupportedValueError.                      (* encoding/json: NaN, +-Inf *)

(** ** [strconv.Atoi] and [strconv.Itoa]

    The standard library's decimal parser, as [ParseInt(s, 10, 0)] computes
    it: an optional sign, then at least one decimal digit, the magnitude
    accumulated in a [uint64] with its overflow checks, then the range
    check against [int].  (The short-string fast path of [Atoi] returns the
    same results.) *)

Module strconv.
Import GoInt.

Definition byte_of (c : ascii) : Z := Z.of_N (Ascii.N_of_ascii c).

(** [d = c - '0'] when ['0' <= c <= '9']. *)
Definition digit_val (c : ascii) : option Z :=
  let b := byte_of c in
  if (48 <=? b) && (b <=? 57) then Some (b - 48) else None.

(** The digit loop of [ParseUint] for base 10; [n] is the value so far. *)
Fixpoint parse_digits (s : string) (n : Z) : Z + numerr :=
  match s with
  | EmptyString => inl n
  | String c s' =>
      match digit_val c with
      | None => inr ErrSyntax
      | Some d =>
          if maxUint64 / 10 + 1 <=? n then inr ErrRange
          else
            let n1 := n * 10 + d in
            if maxUint64 <? n1 then inr ErrRange
            else parse_digits s' n1
      end
  end.

Definition ParseUint (s : string) : Z + numerr :=
  match s with
  | EmptyString => inr ErrSyntax
  | _ => parse_digits s 0
  end.

Definition ParseInt (s0 : string) : Z + numerr :=
  match s0 with
  | EmptyString => inr ErrSyntax
  | String c s' =>
      let neg := Ascii.eqb c "-"%char in
      let s := if Ascii.eqb c "+"%char || neg then s' else s0 in
      match ParseUint s with
      | inr ErrSyntax => inr ErrSyntax
      | inr ErrRange => inr ErrRange
      | inl un =>
          let cutoff := 2 ^ (intSize - 1) in
          if negb neg && (cutoff <=? un) then inr ErrRange
          else if neg && (cutoff <? un) then inr ErrRange
          else inl (if neg then - un else un)
      end
  end.

Definition Atoi (s : string) : Z + error :=
  match ParseInt s with
  | inl n => inl n
  | inr e => inr (NumError "Atoi" s e)
  end.

Definition digit_char (d : Z) : ascii :=
  Ascii.ascii_of_N (Z.to_N (48 + d)).

(** The digits of [n], most significant first, written in front of [acc]
    (the right-to-left loop of [formatBits]). *)
Fixpoint format_digits (fuel : nat) (n : Z) (acc : string) : string :=
  match fuel with
  | O => acc
  | S fuel' =>
      let acc' := String (digit_char (n mod 10)) acc in
      if n <? 10 then acc' else format_digits fuel' (n / 10) acc'
  end.

(** 20 digits are enough for any [uint64]. *)
Definition FormatUint (n : Z) : string := format_digits 20 n "".

Definition Itoa (i : Z) : string :=
  if i <? 0 then String "-"%char (FormatUint (- i)) else FormatUint i.

(** A string whose first byte is a decimal digit. *)
Definition starts_with_digit (s : string) : Prop :=
  match s with
  | String c _ => exists d, 0 <= d < 10 /\ c = digit_char d
  | EmptyString => False
  end.

End strconv.


(** ** The user record *)

(** [type User struct { Name string `json:"name"` }] *)
Record User := { Name : string }.

(** ** [encoding/json], as far as the handlers use it

    JSON texts are handled as trees: the scanner that turns bytes into a
    tree and the writer that turns a tree to bytes are not part of the
    model; what is bound to, and produced from, a Go value is. *)

Module json.

Inductive value :=
| Null
| Bool (b : bool)
| Number (literal : string)
| Str (s : string)
| Array (elems : list value)
| Object (members : list (string * value)).

(** What [json.NewDecoder(r.Body)] finds at the front of the body. *)
Inductive stream :=
| Empty                     (* no bytes: [Decode] returns [io.EOF] *)
| Malformed                 (* not a JSON text *)
| Text (v : value).         (* one JSON value, whatever follows it *)

Definition kind (v : value) : string :=
  match v with
  | Null => "null" | Bool _ => "bool" | Number _ => "number"
  | Str _ => "string" | Array _ => "array" | Object _ => "object"
  end.

Definition lower (c : ascii) : ascii :=
  let b := Ascii.N_of_ascii c in
  if ((65 <=? b) && (b <=? 90))%N then Ascii.ascii_of_N (b + 32) else c.

Fixpoint fold_name (s : string) : string :=
  match s with
  | EmptyString => EmptyString
  | String c s' => String (lower c) (fold_name s')
  end.

(** A member key selects the field tagged ["name"] when it equals the tag,
    exactly or up to letter case. *)
Definition is_name_key (k : string) : bool :=
  String.eqb k "name" || String.eqb (fold_name k) "name".

(** Binding the members of an object to [*User], in order: a string sets
    [Name], [null] leaves it, anything else is skipped and the earliest
    such mismatch is reported at the end; other keys are ignored. *)
Fixpoint decode_members (ms : list (string * value)) (u : User)
         (saved : option error) : User * option error :=
  match ms with
  | [] => (u, saved)
  | (k, v) :: ms' =>
      if is_name_key k then
        match v with
        | Str s => decode_members ms' {| Name := s |} saved
        | Null => decode_members ms' u saved
        | _ =>
            let e := UnmarshalTypeError (kind v) "name" in
            decode_members ms' u
              (match saved with Some _ => saved | None => Some e end)
        end
      else decode_members ms' u saved
  end.

(** [err := json.NewDecoder(body).Decode(&user)]: the user after the call
    and the error, if any. *)
Definition Decode (body : stream) (user : User) : User * option error :=
  match body with
  | Empty => (user, Some EOF)
  | Malformed => (user, Some SyntaxError)
  | Text Null => (user, None)
  | Text (Object ms) => decode_members ms user None
  | Text v => (user, Some (UnmarshalTypeError (kind v) "User"))
  end.

(** Go values as [Marshal] sees them through reflection. *)
Inductive govalue :=
| GoString (s : string)
| GoBool (b : bool)
| GoInt (i : Z)
| GoFloatNonFinite          (* NaN, +Inf, -Inf *)
| GoChan
| GoFunc
| GoStruct (fields : list (string * govalue)).

Fixpoint Marshal (v : govalue) : value + error :=
  match v with
  | GoString s => inl (Str s)
  | GoBool b => inl (Bool b)
  | GoInt i => inl (Number (strconv.Itoa i))
  | GoFloatNonFinite => inr UnsupportedValueError
  | GoChan | GoFunc => inr UnsupportedTypeError
  | GoStruct fields =>
      let fix members (fs : list (string * govalue))
            : list (string * value) + error :=
        match fs with
        | [] => inl []
        | (k, f) :: fs' =>
            match Marshal f with
            | inr e => inr e
            | inl j =>
                match members fs' with
                | inr e => inr e
                | inl js => inl ((k, j) :: js)
                end
            end
        end in
      match members fields with
      | inr e => inr e
      | inl js => inl (Object js)
      end
  end.

(** A [User] under reflection: one exported field, tagged ["name"]. *)
Definition reflect_User (u : User) : govalue :=
  GoStruct [("name", GoString (Name u))].

End json.

(** ** [net/http], as far as the handlers use it *)

Module http.

Definition StatusOK : Z := 200.
Definition StatusNoContent : Z := 204.
Definition StatusBadRequest : Z := 400.
Definition StatusNotFound : Z := 404.
Definition StatusInternalServerError : Z := 500.

Inductive payload :=
| NoBody
| Plain (msg : string)
| ErrorText (e : error)         (* [err.Error()] *)
| Json (j : json.value).        (* the bytes [json.Marshal] returned *)

(** What a handler has written to its [ResponseWriter] when it returns. *)
Record Response := {
  StatusCode : Z;
  ContentType : option string;  (* [None]: not set by the handler *)
  Body : payload
}.

(** [http.Error(w, msg, code)]; the newline it writes after [msg] is left
    out. *)
Definition Error (msg : payload) (code : Z) : Response :=
  {| StatusCode := code;
     ContentType := Some "text/plain; charset=utf-8";
     Body := msg |}.

(** [w.WriteHeader(code)] and nothing else. *)
Definition WriteHeader (code : Z) : Response :=
  {| StatusCode := code; ContentType := None; Body := NoBody |}.

End http.

(** ** [sync.RWMutex] *)

Module sync.

Record RWMutex := { writer : bool; readers : nat }.

(** The zero value: an unlocked mutex. *)
Definition unlocked : RWMutex := {| writer := false; readers := 0 |}.

(** Each operation gives the mutex after the call, or [None] when the call
    cannot go through in this state: [Lock] and [RLock] wait, [Unlock] and
    [RUnlock] of a mutex not so locked are fatal. *)
Definition Lock (m : RWMutex) : option RWMutex :=
  if writer m || negb (Nat.eqb (readers m) 0) then None
  else Some {| writer := true; readers := 0 |}.

Definition Unlock (m : RWMutex) : option RWMutex :=
  if writer m then Some unlocked else None.

Definition RLock (m : RWMutex) : option RWMutex :=
  if writer m then None
  else Some {| writer := false; readers := S (readers m) |}.

Definition RUnlock (m : RWMutex) : option RWMutex :=
  match readers m with
  | O => None
  | S n => Some {| writer := writer m; readers := n |}
  end.

End sync.

(** ** The two globals *)

(** [var userCache = make(map[int]User)] and [var cacheMutex sync.RWMutex] *)
Record globals := {
  userCache : gmap Z User;
  cacheMutex : sync.RWMutex
}.

(** The globals between requests: some cache, nobody holding the mutex. *)
Definition idle (m : gmap Z User) : globals :=
  {| userCache := m; cacheMutex := sync.unlocked |}.

(** Process start. *)
Definition initial : globals := idle ∅.

(** [len(userCache)] *)
Definition len (m : gmap Z User) : Z := Z.of_nat (size m).

(** ** Handler programs

    A handler is a tree of the actions it performs on the globals, each
    with the rest of the handler as its continuation. *)

Inductive prog (R : Type) : Type :=
| Ret (r : R)
| Lock (k : prog R)                                (* cacheMutex.Lock() *)
| Unlock (k : prog R)                              (* cacheMutex.Unlock() *)
| RLock (k : prog R)                               (* cacheMutex.RLock() *)
| RUnlock (k : prog R)                             (* cacheMutex.RUnlock() *)
| MapIndex (id : Z) (k : option User -> prog R)    (* v, ok := userCache[id] *)
| MapLen (k : Z -> prog R)                         (* len(userCache) *)
| MapAssign (id : Z) (u : User) (k : prog R)       (* userCache[id] = u *)
| MapDelete (id : Z) (k : prog R).                 (* delete(userCache, id) *)

Arguments Ret {R} r.
Arguments Lock {R} k.
Arguments Unlock {R} k.
Arguments RLock {R} k.
Arguments RUnlock {R} k.
Arguments MapIndex {R} id k.
Arguments MapLen {R} k.
Arguments MapAssign {R} id u k.
Arguments MapDelete {R} id k.

Declare Scope prog_scope.
Delimit Scope prog_scope with prog.
Notation "a ;; k" := (a k)
  (at level 100, k at level 200, right associativity, only parsing)
  : prog_scope.
Notation "x <- a ;; k" := (a (fun x => k))
  (at level 100, a at next level, k at level 200, right associativity,
   only parsing) : prog_scope.

(** ** The handlers of [main.go] *)

Import http.

(** [handleRoot] (main.go:36-41): writes the greeting; the status defaults
    to 200. *)
Definition handleRoot : prog Response :=
  Ret {| StatusCode := StatusOK; ContentType := None;
         Body := Plain "Hello World" |}.

(** [deleteUser] (main.go:43-73), with [pathId] standing for
    [r.PathValue("id")].  The lookup of line 58 comes before the [Lock] of
    line 67. *)
Definition deleteUser (pathId : string) : prog Response :=
  match strconv.Atoi pathId with
  | inr err => Ret (Error (ErrorText err) StatusBadRequest)
  | inl id =>
      (* check if user even exists in database *)
      (found <- MapIndex id ;;
       match found with
       | None => Ret (Error (Plain "user not found") StatusNotFound)
       | Some _ =>
           Lock ;;
           MapDelete id ;;
           Unlock ;;
           Ret (WriteHeader StatusNoContent)
       end)%prog
  end.

(** [getUser] (main.go:75-124), with [pathId] standing for
    [r.PathValue("id")]. *)
Definition getUser (pathId : string) : prog Response :=
  match strconv.Atoi pathId with
  | inr err => Ret (Error (ErrorText err) StatusBadRequest)
  | inl id =>
      (RLock ;;
       found <- MapIndex id ;;
       RUnlock ;;
       match found with
       | None => Ret (Error (Plain "user not found") StatusNotFound)
       | Some user =>
           match json.Marshal (json.reflect_User user) with
           | inr err => Ret (Error (ErrorText err) StatusInternalServerError)
           | inl j =>
               Ret {| StatusCode := StatusOK;
                      ContentType := Some "application/json";
                      Body := Json j |}
           end
       end)%prog
  end.

(** [createUser] (main.go:126-162), with [body] standing for [r.Body].
    Line 157, [userCache[len(userCache)+1] = user], reads the length and
    then assigns, both inside the exclusive section. *)
Definition createUser (body : json.stream) : prog Response :=
  let user := {| Name := "" |} in                  (* var user User *)
  let (user, err) := json.Decode body user in
  match err with
  | Some err => Ret (Error (ErrorText err) StatusBadRequest)
  | None =>
      if String.eqb (Name user) "" then
        Ret (Error (Plain "name is required") StatusBadRequest)
      else
        (Lock ;;
         n <- MapLen ;;
         MapAssign (GoInt.add n 1) user ;;
         Unlock ;;
         Ret (WriteHeader StatusNoContent))%prog
  end.

(** A request as the [ServeMux] of [main] dispatches it. *)
Inductive Request :=
| POST_users (body : json.stream)      (* "POST /users" *)
| GET_users_id (id : string)           (* "GET /users/{id}" *)
| DELETE_users_id (id : string)        (* "DELETE /users/{id}" *)
| Other.                               (* "/" *)

Definition mux (r : Request) : prog Response :=
  match r with
  | POST_users body => createUser body
  | GET_users_id id => getUser id
  | DELETE_users_id id => deleteUser id
  | Other => handleRoot
  end.

(** ** Running one handler to completion *)

(** One action on the globals.  [None]: the action cannot go through (a
    lock that is not free, an unlock of a mutex that is not locked). *)
Definition with_mutex (g : globals) (m : option sync.RWMutex) : option globals :=
  match m with
  | Some m' => Some {| userCache := userCache g; cacheMutex := m' |}
  | None => None
  end.

Definition with_cache (g : globals) (c : gmap Z User) : globals :=
  {| userCache := c; cacheMutex := cacheMutex g |}.

Fixpoint exec {R} (p : prog R) (g : globals) : option (R * globals) :=
  match p with
  | Ret r => Some (r, g)
  | Lock k =>
      match with_mutex g (sync.Lock (cacheMutex g)) with
      | Some g' => exec k g' | None => None end
  | Unlock k =>
      match with_mutex g (sync.Unlock (cacheMutex g)) with
      | Some g' => exec k g' | None => None end
  | RLock k =>
      match with_mutex g (sync.RLock (cacheMutex g)) with
      | Some g' => exec k g' | None => None end
  | RUnlock k =>
      match with_mutex g (sync.RUnlock (cacheMutex g)) with
      | Some g' => exec k g' | None => None end
  | MapIndex id k => exec (k (userCache g !! id)) g
  | MapLen k => exec (k (len (userCache g))) g
  | MapAssign id u k => exec k (with_cache g (<[id := u]> (userCache g)))
  | MapDelete id k => exec k (with_cache g (delete id (userCache g)))
  end.

(** Serving one request with no other request in flight. *)
Definition serve (r : Request) (g : globals) : option (Response * globals) :=
  exec (mux r) g.

(** Serving a list of requests one after the other; the responses come in
    the order of the requests. *)
Fixpoint serve_all (rs : list Request) (g : globals)
  : option (list Response * globals) :=
  match rs with
  | [] => Some ([], g)
  | r :: rs' =>
      match serve r g with
      | None => None
      | Some (resp, g') =>
          match serve_all rs' g' with
          | None => None
          | Some (resps, g'') => Some (resp :: resps, g'')
          end
      end
  end.

(** The key [createUser] stores under when the cache is [m]:
    [len(userCache)+1]. *)
Definition next_key (m : gmap Z User) : Z := GoInt.add (len m) 1.

(** ** Handlers as goroutines

    The server runs every request in a goroutine of its own, so the actions
    of several handlers interleave.  A goroutine is the rest of its handler
    together with what it holds of [cacheMutex]. *)

Inductive hold := Unheld | Shared | Exclusive.

Record goroutine := { holds : hold; code : prog Response }.

Definition spawn (p : prog Response) : goroutine :=
  {| holds := Unheld; code := p |}.

(** One action of one goroutine; [None] when it has returned or has to
    wait. *)
Definition step (t : goroutine) (g : globals) : option (goroutine * globals) :=
  match code t with
  | Ret _ => None
  | Lock k =>
      match with_mutex g (sync.Lock (cacheMutex g)) with
      | Some g' => Some ({| holds := Exclusive; code := k |}, g')
      | None => None
      end
  | Unlock k =>
      match with_mutex g (sync.Unlock (cacheMutex g)) with
      | Some g' => Some ({| holds := Unheld; code := k |}, g')
      | None => None
      end
  | RLock k =>
      match with_mutex g (sync.RLock (cacheMutex g)) with
      | Some g' => Some ({| holds := Shared; code := k |}, g')
      | None => None
      end
  | RUnlock k =>
      match with_mutex g (sync.RUnlock (cacheMutex g)) with
      | Some g' => Some ({| holds := Unheld; code := k |}, g')
      | None => None
      end
  | MapIndex id k =>
      Some ({| holds := holds t; code := k (userCache g !! id) |}, g)
  | MapLen k =>
      Some ({| holds := holds t; code := k (len (userCache g)) |}, g)
  | MapAssign id u k =>
      Some ({| holds := holds t; code := k |},
            with_cache g (<[id := u]> (userCache g)))
  | MapDelete id k =>
      Some ({| holds := holds t; code := k |},
            with_cache g (delete id (userCache g)))
  end.

(** The globals and the goroutines in flight. *)
Definition config : Type := globals * list goroutine.

(** Goroutine number [i] takes one step. *)
Definition sched_step (i : nat) (c : config) : option config :=
  match snd c !! i with
  | None => None
  | Some t =>
      match step t (fst c) with
      | None => None
      | Some (t', g') => Some (g', <[i := t']> (snd c))
      end
  end.

(** A schedule: which goroutine steps, in order. *)
Fixpoint run_schedule (sched : list nat) (c : config) : option config :=
  match sched with
  | [] => Some c
  | i :: sched' =>
      match sched_step i c with
      | None => None
      | Some c' => run_schedule sched' c'
      end
  end.

(** What a goroutine has answered, once it has returned. *)
Definition answer (t : goroutine) : option Response :=
  match code t with Ret r => Some r | _ => None end.

(** *** The access discipline *)

Inductive access := Read | Write.

(** The access to [userCache] a program is about to make, if any. *)
Definition next_access {R} (p : prog R) : option access :=
  match p with
  | MapIndex _ _ | MapLen _ => Some Read
  | MapAssign _ _ _ | MapDelete _ _ => Some Write
  | _ => None
  end.

(** A read needs the mutex held, shared or exclusive; a write needs it held
    exclusively. *)
Definition covers (h : hold) (a : access) : bool :=
  match a, h with
  | Read, (Shared | Exclusive) => true
  | Write, Exclusive => true
  | _, _ => false
  end.

(** A goroutine about to touch [userCache] without the hold the access
    needs. *)
Definition unguarded (t : goroutine) : bool :=
  match next_access (code t) with
  | Some a => negb (covers (holds t) a)
  | None => false
  end.

(** [disciplined h p]: started with hold [h], program [p] locks before every
    access to [userCache], whatever the accesses return, and has let go of
    the mutex when it returns. *)
Fixpoint disciplined {R} (h : hold) (p : prog R) : Prop :=
  match p with
  | Ret _ => h = Unheld
  | Lock k => h = Unheld /\ disciplined Exclusive k
  | Unlock k => h = Exclusive /\ disciplined Unheld k
  | RLock k => h = Unheld /\ disciplined Shared k
  | RUnlock k => h = Shared /\ disciplined Unheld k
  | MapIndex _ k => covers h Read = true /\ forall v, disciplined h (k v)
  | MapLen k => covers h Read = true /\ forall n, disciplined h (k n)
  | MapAssign _ _ k => covers h Write = true /\ disciplined h k
  | MapDelete _ k => covers h Write = true /\ disciplined h k
  end.

(** ** Serving requests one at a time: vocabulary of the statements *)

(** The three things a handler run alone can do: leave the cache as it is,
    store a named user under [next_key], or remove a present id. *)
Inductive effect (m : gmap Z User) : Response -> gmap Z User -> Prop :=
| effect_none resp :
    StatusCode resp <> StatusInternalServerError ->
    effect m resp m
| effect_store u :
    Name u <> "" ->
    effect m (WriteHeader StatusNoContent) (<[next_key m := u]> m)
| effect_remove id u :
    m !! id = Some u ->
    effect m (WriteHeader StatusNoContent) (delete id m).

(** Every id in the cache is positive. *)
Definition positive_keys (m : gmap Z User) : Prop :=
  forall id, is_Some (m !! id) -> 0 < id.

(** The 404 of [getUser] and [deleteUser]. *)
Definition user_not_found : Response :=
  Error (Plain "user not found") StatusNotFound.

(** The request body [{"name": n}] and the users of the scenarios. *)
Definition named (n : string) : json.stream :=
  json.Text (json.Object [("name", json.Str n)]).

Definition uA : User := {| Name := "A" |}.
Definition uB : User := {| Name := "B" |}.
Definition uC : User := {| Name := "C" |}.

(** ** Vocabulary of the further properties *)

(** The ids in the cache are exactly [1 .. len]. *)
Definition dense (m : gmap Z User) : Prop :=
  forall id, is_Some (m !! id) <-> 1 <= id <= len m.

(** The requests [deleteUser] serves. *)
Definition is_delete (r : Request) : bool :=
  match r with DELETE_users_id _ => true | _ => false end.

(** Every user in the cache has a name. *)
Definition named_users (m : gmap Z User) : Prop :=
  forall id u, m !! id = Some u -> Name u <> "".

(** The four patterns registered in [main] (main.go:26-30). *)
Inductive route := POST_users_route | GET_user_route | DELETE_user_route | root_route.

Definition route_of (r : Request) : route :=
  match r with
  | POST_users _ => POST_users_route
  | GET_users_id _ => GET_user_route
  | DELETE_users_id _ => DELETE_user_route
  | Other => root_route
  end.

(** The statuses the handler of a route writes. *)
Definition statuses (rt : route) : list Z :=
  match rt with
  | POST_users_route => [StatusNoContent; StatusBadRequest]
  | GET_user_route => [StatusOK; StatusBadRequest; StatusNotFound]
  | DELETE_user_route => [StatusNoContent; StatusBadRequest; StatusNotFound]
  | root_route => [StatusOK]
  end.

(** How many of the answers are 204. *)
Definition accepted (resps : list Response) : nat :=
  length (List.filter (fun resp => StatusCode resp =? StatusNoContent) resps).

(** [paired h p]: started with hold [h], program [p] takes the mutex only
    when it holds nothing, gives back only what it holds, writes to
    [userCache] only under the exclusive hold, and holds nothing when it
    returns.  Reads are not constrained. *)
Fixpoint paired {R} (h : hold) (p : prog R) : Prop :=
  match p with
  | Ret _ => h = Unheld
  | Lock k => h = Unheld /\ paired Exclusive k
  | Unlock k => h = Exclusive /\ paired Unheld k
  | RLock k => h = Unheld /\ paired Shared k
  | RUnlock k => h = Shared /\ paired Unheld k
  | MapIndex _ k => forall v, paired h (k v)
  | MapLen k => forall n, paired h (k n)
  | MapAssign _ _ k => h = Exclusive /\ paired h k
  | MapDelete _ k => h = Exclusive /\ paired h k
  end.

Definition hold_eqb (a b : hold) : bool :=
  match a, b with
  | Unheld, Unheld | Shared, Shared | Exclusive, Exclusive => true
  | _, _ => false
  end.

(** How many goroutines hold the mutex in mode [h]. *)
Definition holders (h : hold) (ts : list goroutine) : nat :=
  length (List.filter (fun t => hold_eqb (holds t) h) ts).

(** The mutex records what the goroutines hold: its reader count is the
    number of shared holders; its writer flag is set exactly when one
    goroutine holds it exclusively, and then nobody holds it shared. *)
Definition mutex_agrees (g : globals) (ts : list goroutine) : Prop :=
  sync.readers (cacheMutex g) = holders Shared ts /\
  (if sync.writer (cacheMutex g)
   then holders Exclusive ts = 1%nat /\ holders Shared ts = 0%nat
   else holders Exclusive ts = 0%nat).

(** One goroutine per request, none started yet. *)
Definition pool (rs : list Request) : list goroutine :=
  map (fun r => spawn (mux r)) rs.

(** What holds of every pool of handlers, however its goroutines have been
    scheduled: each goroutine is paired and the mutex agrees with what the
    goroutines hold. *)
Definition pool_ok (c : config) : Prop :=
  Forall (fun t => paired (holds t) (code t)) (snd c) /\
  mutex_agrees (fst c) (snd c).

Definition answered (t : goroutine) : Prop := is_Some (answer t).

(** [within n p]: whatever its reads return, [p] returns after at most [n]
    actions. *)
Fixpoint within {R} (n : nat) (p : prog R) : Prop :=
  match p with
  | Ret _ => True
  | Lock k | Unlock k | RLock k | RUnlock k
  | MapAssign _ _ k | MapDelete _ k =>
      match n with O => False | S n' => within n' k end
  | MapIndex _ k =>
      match n with O => False | S n' => forall v, within n' (k v) end
  | MapLen k =>
      match n with O => False | S n' => forall l, within n' (k l) end
  end.

(** Budgets [bs], one per goroutine, bound what each has left to do. *)
Definition budgeted (bs : list nat) (ts : list goroutine) : Prop :=
  Forall2 (fun b t => within b (code t)) bs ts.

(** [keyed h seen p]: every assignment in [p] is stored under [n + 1] for
    the length [n] that [p] read last, read under the exclusive hold and
    with no lock operation or write to the cache since.  [h] is the hold
    [p] starts with and [seen] the length read so far, if any. *)
Fixpoint keyed {R} (h : hold) (seen : option Z) (p : prog R) : Prop :=
  match p with
  | Ret _ => True
  | Lock k => keyed Exclusive None k
  | Unlock k | RUnlock k => keyed Unheld None k
  | RLock k => keyed Shared None k
  | MapIndex _ k => forall v, keyed h seen (k v)
  | MapLen k =>
      forall n, keyed h (match h with Exclusive => Some n | _ => None end) (k n)
  | MapAssign id _ k =>
      (exists n, seen = Some n /\ id = GoInt.add n 1) /\ keyed h None k
  | MapDelete _ k => keyed h None k
  end.

(** A goroutine's pending length, if it has one, is the length the cache
    has now. *)
Definition length_current (g : globals) (t : goroutine) : Prop :=
  exists seen,
    keyed (holds t) seen (code t) /\
    forall n, seen = Some n ->
      holds t = Exclusive /\ n = len (userCache g).

(** The two invariants together are kept by every step. *)
Definition lengths_current (c : config) : Prop :=
  pool_ok c /\
  forall j t, snd c !! j = Some t -> length_current (fst c) t.


(** [one_section h p]: [p] is disciplined and has a single critical
    section: it touches [userCache] only between taking the mutex and
    giving it back, and returns right after giving it back. *)
Fixpoint one_section {R} (h : hold) (p : prog R) : Prop :=
  match p with
  | Ret _ => h = Unheld
  | Lock k => h = Unheld /\ one_section Exclusive k
  | RLock k => h = Unheld /\ one_section Shared k
  | Unlock k => h = Exclusive /\ exists r, k = Ret r
  | RUnlock k => h = Shared /\ exists r, k = Ret r
  | MapIndex _ k => covers h Read = true /\ forall v, one_section h (k v)
  | MapLen k => covers h Read = true /\ forall n, one_section h (k n)
  | MapAssign _ _ k => h = Exclusive /\ one_section h k
  | MapDelete _ k => h = Exclusive /\ one_section h k
  end.

(** The globals as one goroutine sees them when it runs alone with hold
    [h] on cache [c]. *)
Definition alone (h : hold) (c : gmap Z User) : globals :=
  {| userCache := c;
     cacheMutex :=
       match h with
       | Unheld => sync.unlocked
       | Shared => {| sync.writer := false; sync.readers := 1 |}
       | Exclusive => {| sync.writer := true; sync.readers := 0 |}
       end |}.

(** The requests answered so far, each with its answer. *)
Fixpoint answered_pairs (rs : list Request) (ts : list goroutine)
  : list (Request * Response) :=
  match rs, ts with
  | r :: rs', t :: ts' =>
      match answer t with
      | Some resp => (r, resp) :: answered_pairs rs' ts'
      | None => answered_pairs rs' ts'
      end
  | _, _ => []
  end.

(** What is known of the goroutine of request [r] while the requests
    linearized so far have led to cache [cl]: it has returned; or it has
    not started; or it is inside its critical section and the rest of it,
    run alone on the cache as it is, gives what serving [r] on [cl]
    gives. *)
Definition in_step_with (cl : gmap Z User) (g : globals) (r : Request)
           (t : goroutine) : Prop :=
  one_section (holds t) (code t) /\
  match answer t, holds t with
  | Some _, _ => True
  | None, Unheld => code t = mux r
  | None, h => exec (code t) (alone h (userCache g)) = serve r (idle cl)
  end.

(** The requests answered so far, taken in some order [lin], served one
    after the other from the first cache [m], give the answers they got
    and lead to a cache [cl]; [cl] is the cache as it is unless a goroutine
    is inside an exclusive section; and every goroutine is in step with
    [cl]. *)
Definition linearized (rs : list Request) (m : gmap Z User) (c : config)
  : Prop :=
  pool_ok c /\
  length (snd c) = length rs /\
  exists lin cl,
    lin ≡ₚ answered_pairs rs (snd c) /\
    serve_all (map fst lin) (idle m) = Some (map snd lin, idle cl) /\
    (holders Exclusive (snd c) = 0%nat -> userCache (fst c) = cl) /\
    forall i r t, rs !! i = Some r -> snd c !! i = Some t ->
      in_step_with cl (fst c) r t.

(** ** Facts about the model *)

Module GoInt_facts.
Import GoInt.

Lemma wrap_in_range z : in_range (wrap z).
Proof.
  unfold in_range, wrap, minInt, maxInt.
  pose proof (Z.mod_pos_bound (z + 2 ^ 63) (2 ^ 64) ltac:(lia)). lia.
Qed.

Lemma wrap_small z : in_range z -> wrap z = z.
Proof.
  unfold in_range, wrap, minInt, maxInt. intros Hz.
  rewrite Z.mod_small by lia. lia.
Qed.

End GoInt_facts.

(** *** [Atoi] after [Itoa] *)

Module strconv_facts.
Import GoInt strconv.

Lemma digit_cases d : 0 <= d < 10 ->
  d = 0 \/ d = 1 \/ d = 2 \/ d = 3 \/ d = 4 \/ d = 5 \/ d = 6 \/ d = 7 \/ d = 8 \/ d = 9.
Proof. lia. Qed.

Lemma digit_val_char d : 0 <= d < 10 -> digit_val (digit_char d) = Some d.
Proof.
  intros Hd. destruct (digit_cases d Hd) as [->|[->|[->|[->|[->|[->|[->|[->|[->| ->]]]]]]]]];
    reflexivity.
Qed.

Lemma digit_char_not_sign d : 0 <= d < 10 ->
  Ascii.eqb (digit_char d) "+" = false /\ Ascii.eqb (digit_char d) "-" = false.
Proof.
  intros Hd. destruct (digit_cases d Hd) as [->|[->|[->|[->|[->|[->|[->|[->|[->| ->]]]]]]]]];
    split; reflexivity.
Qed.

Lemma parse_digits_step c s n d :
  digit_val c = Some d -> 0 <= n -> 0 <= d < 10 -> n * 10 + d <= maxUint64 ->
  parse_digits (String c s) n = parse_digits s (n * 10 + d).
Proof.
  intros Hc Hn Hd Hle. cbn [parse_digits]. rewrite Hc.
  assert (Hcut : maxUint64 / 10 + 1 = 1844674407370955162) by reflexivity.
  rewrite Hcut. unfold maxUint64 in *.
  destruct (Z.leb_spec 1844674407370955162 n) as [Hge|_]; [lia|].
  cbv zeta.
  destruct (Z.ltb_spec (2 ^ 64 - 1) (n * 10 + d)) as [Hlt|_]; [lia|].
  reflexivity.
Qed.

Lemma parse_format fuel : forall n rest,
  0 <= n <= maxUint64 -> n < 10 ^ Z.of_nat fuel ->
  parse_digits (format_digits fuel n rest) 0 = parse_digits rest n.
Proof.
  induction fuel as [|fuel IH]; intros n rest Hn Hlt.
  - change (10 ^ Z.of_nat 0) with 1 in Hlt.
    assert (n = 0) as -> by lia. reflexivity.
  - cbn [format_digits].
    pose proof (Z.mod_pos_bound n 10 ltac:(lia)) as Hmod.
    pose proof (Z.div_mod n 10 ltac:(lia)) as Hdm.
    assert (Hdv : digit_val (digit_char (n mod 10)) = Some (n mod 10))
      by (apply digit_val_char; lia).
    unfold maxUint64 in Hn.
    destruct (Z.ltb_spec n 10) as [Hsmall|Hbig].
    + rewrite (parse_digits_step _ _ 0 (n mod 10) Hdv)
        by (unfold maxUint64; lia).
      f_equal. rewrite Z.mod_small by lia. lia.
    + rewrite IH.
      * rewrite (parse_digits_step _ _ (n / 10) (n mod 10) Hdv)
          by (unfold maxUint64; lia).
        f_equal. lia.
      * unfold maxUint64. lia.
      * rewrite Nat2Z.inj_succ, Z.pow_succ_r in Hlt by lia. lia.
Qed.

Lemma format_digits_head fuel : forall n acc,
  0 <= n -> (starts_with_digit acc \/ fuel <> O) ->
  starts_with_digit (format_digits fuel n acc).
Proof.
  induction fuel as [|fuel IH]; intros n acc Hn Hacc.
  - destruct Hacc as [H|H]; [exact H | congruence].
  - cbn [format_digits].
    assert (Hd : starts_with_digit (String (digit_char (n mod 10)) acc)).
    { exists (n mod 10). split; [|reflexivity].
      apply Z.mod_pos_bound; lia. }
    destruct (n <? 10); [exact Hd|].
    apply IH; [apply Z.div_pos; lia | left; exact Hd].
Qed.

Lemma ParseUint_FormatUint n :
  0 <= n <= maxUint64 -> ParseUint (FormatUint n) = inl n.
Proof.
  intros Hn. unfold ParseUint, FormatUint.
  pose proof (format_digits_head 20 n "" ltac:(lia) ltac:(right; congruence)) as Hh.
  pose proof (parse_format 20 n "" Hn) as Hp.
  destruct (format_digits 20 n "") as [|c s]; [destruct Hh|].
  rewrite Hp; [reflexivity|].
  unfold maxUint64 in Hn. change (10 ^ Z.of_nat 20) with 100000000000000000000. lia.
Qed.

(** Printing an [int] and parsing it back gives the [int]. *)
Lemma Atoi_Itoa i : in_range i -> Atoi (Itoa i) = inl i.
Proof.
  unfold in_range, minInt, maxInt. intros Hi.
  unfold Atoi, Itoa, ParseInt.
  destruct (Z.ltb_spec i 0) as [Hneg|Hpos].
  - change (Ascii.eqb "-" "-") with true. change (Ascii.eqb "-" "+") with false.
    cbn [orb]. rewrite ParseUint_FormatUint by (unfold maxUint64; lia).
    cbn [negb andb]. change (2 ^ (intSize - 1)) with (2 ^ 63).
    destruct (Z.ltb_spec (2 ^ 63) (- i)); [lia|].
    f_equal. lia.
  - pose proof (ParseUint_FormatUint i ltac:(unfold maxUint64; lia)) as Hp.
    pose proof (format_digits_head 20 i "" Hpos ltac:(right; congruence)) as Hh.
    fold (FormatUint i) in Hh.
    destruct (FormatUint i) as [|c s]; [destruct Hh|].
    destruct Hh as (d & Hd & ->).
    destruct (digit_char_not_sign d Hd) as [-> ->].
    cbn [orb]. rewrite Hp. cbn [negb andb].
    change (2 ^ (intSize - 1)) with (2 ^ 63).
    destruct (Z.leb_spec (2 ^ 63) i); [lia|]. reflexivity.
Qed.

(** Whatever [Atoi] accepts is an [int]. *)
Lemma Atoi_in_range s i : Atoi s = inl i -> in_range i.
Proof.
  unfold Atoi, ParseInt, in_range, minInt, maxInt.
  destruct s as [|c s]; [discriminate|].
  assert (Hnn : forall t n, 0 <= n -> forall un, parse_digits t n = inl un -> 0 <= un).
  { induction t as [|a t IHt]; intros n Hn un; cbn [parse_digits].
    - intros [= <-]. exact Hn.
    - destruct (digit_val a) as [d|] eqn:Hd; [|discriminate].
      destruct (_ <=? n); [discriminate|]. cbv zeta.
      destruct (_ <? _); [discriminate|].
      apply IHt. unfold digit_val in Hd.
      destruct (Z.leb_spec 48 (byte_of a)); cbn [andb] in Hd; [|discriminate].
      destruct (byte_of a <=? 57); [|discriminate].
      injection Hd as <-. lia. }
  cbv zeta.
  match goal with |- context [ParseUint ?x] => set (t := x) end.
  destruct (ParseUint t) as [un|[|]] eqn:Hu; try discriminate.
  assert (0 <= un).
  { unfold ParseUint in Hu. destruct t; [discriminate|]. eapply Hnn; [|exact Hu]. lia. }
  change (2 ^ (intSize - 1)) with (2 ^ 63).
  destruct (Ascii.eqb c "-"); cbn [negb andb].
  - destruct (Z.ltb_spec (2 ^ 63) un); [discriminate|]. intros [= <-]. lia.
  - destruct (Z.leb_spec (2 ^ 63) un); [discriminate|]. intros [= <-]. lia.
Qed.

End strconv_facts.

Module json_facts.
Import json.

(** A [User] always marshals, to an object with the one member ["name"]. *)
Lemma Marshal_User u :
  Marshal (reflect_User u) = inl (Object [("name", Str (Name u))]).
Proof. reflexivity. Qed.

(** Decoding what [Marshal] made of a [User] gives the [User] back. *)
Lemma Decode_Marshal_User u u0 j :
  Marshal (reflect_User u) = inl j -> Decode (Text j) u0 = (u, None).
Proof. rewrite Marshal_User. intros [= <-]. destruct u. reflexivity. Qed.

End json_facts.

(** *** The handlers, run alone on idle globals *)

Section handlers_alone.
Variable m : gmap Z User.

Lemma getUser_bad pathId err :
  strconv.Atoi pathId = inr err ->
  getUser pathId = Ret (Error (ErrorText err) StatusBadRequest).
Proof. unfold getUser. intros ->. reflexivity. Qed.

Lemma deleteUser_bad pathId err :
  strconv.Atoi pathId = inr err ->
  deleteUser pathId = Ret (Error (ErrorText err) StatusBadRequest).
Proof. unfold deleteUser. intros ->. reflexivity. Qed.

Lemma getUser_absent pathId id :
  strconv.Atoi pathId = inl id -> m !! id = None ->
  exec (getUser pathId) (idle m)
  = Some (Error (Plain "user not found") StatusNotFound, idle m).
Proof. unfold getUser. intros -> Hm. cbn. rewrite Hm. reflexivity. Qed.

Lemma getUser_present pathId id u :
  strconv.Atoi pathId = inl id -> m !! id = Some u ->
  exec (getUser pathId) (idle m)
  = Some ({| StatusCode := StatusOK;
             ContentType := Some "application/json";
             Body := Json (json.Object [("name", json.Str (Name u))]) |},
          idle m).
Proof. unfold getUser. intros -> Hm. cbn. rewrite Hm. reflexivity. Qed.

Lemma deleteUser_absent pathId id :
  strconv.Atoi pathId = inl id -> m !! id = None ->
  exec (deleteUser pathId) (idle m)
  = Some (Error (Plain "user not found") StatusNotFound, idle m).
Proof. unfold deleteUser. intros -> Hm. cbn. rewrite Hm. reflexivity. Qed.

Lemma deleteUser_present pathId id u :
  strconv.Atoi pathId = inl id -> m !! id = Some u ->
  exec (deleteUser pathId) (idle m)
  = Some (WriteHeader StatusNoContent, idle (delete id m)).
Proof. unfold deleteUser. intros -> Hm. cbn. rewrite Hm. reflexivity. Qed.

Lemma createUser_decode_error body u err :
  json.Decode body {| Name := "" |} = (u, Some err) ->
  createUser body = Ret (Error (ErrorText err) StatusBadRequest).
Proof. unfold createUser. intros ->. reflexivity. Qed.

Lemma createUser_no_name body u :
  json.Decode body {| Name := "" |} = (u, None) -> Name u = "" ->
  createUser body = Ret (Error (Plain "name is required") StatusBadRequest).
Proof. unfold createUser. intros -> ->. reflexivity. Qed.

Lemma createUser_stores body u :
  json.Decode body {| Name := "" |} = (u, None) -> Name u <> "" ->
  exec (createUser body) (idle m)
  = Some (WriteHeader StatusNoContent, idle (<[next_key m := u]> m)).
Proof.
  unfold createUser. intros -> Hn.
  destruct (String.eqb_spec (Name u) ""); [contradiction|]. reflexivity.
Qed.

End handlers_alone.

(** *** What one request does to the cache *)

Lemma serve_effect r m :
  exists resp m', serve r (idle m) = Some (resp, idle m') /\ effect m resp m'.
Proof.
  destruct r as [body | pathId | pathId | ]; unfold serve, mux.
  - destruct (json.Decode body {| Name := "" |}) as [u [err|]] eqn:Hd.
    + rewrite (createUser_decode_error _ _ _ Hd).
      eexists _, m. split; [reflexivity|]. constructor. discriminate.
    + destruct (String.eqb_spec (Name u) "") as [He|Hne].
      * rewrite (createUser_no_name _ _ Hd He).
        eexists _, m. split; [reflexivity|]. constructor. discriminate.
      * rewrite (createUser_stores m _ _ Hd Hne).
        eexists _, _. split; [reflexivity|]. constructor. exact Hne.
  - destruct (strconv.Atoi pathId) as [id|err] eqn:Ha.
    + destruct (m !! id) as [u|] eqn:Hm.
      * rewrite (getUser_present m _ _ _ Ha Hm).
        eexists _, m. split; [reflexivity|]. constructor. discriminate.
      * rewrite (getUser_absent m _ _ Ha Hm).
        eexists _, m. split; [reflexivity|]. constructor. discriminate.
    + rewrite (getUser_bad _ _ Ha).
      eexists _, m. split; [reflexivity|]. constructor. discriminate.
  - destruct (strconv.Atoi pathId) as [id|err] eqn:Ha.
    + destruct (m !! id) as [u|] eqn:Hm.
      * rewrite (deleteUser_present m _ _ _ Ha Hm).
        eexists _, _. split; [reflexivity|]. econstructor. exact Hm.
      * rewrite (deleteUser_absent m _ _ Ha Hm).
        eexists _, m. split; [reflexivity|]. constructor. discriminate.
    + rewrite (deleteUser_bad _ _ Ha).
      eexists _, m. split; [reflexivity|]. constructor. discriminate.
  - eexists _, m. split; [reflexivity|]. constructor. discriminate.
Qed.

(** *** Keys stay positive while the count of requests fits an [int] *)

Lemma next_key_small (m : gmap Z User) :
  len m < GoInt.maxInt -> next_key m = len m + 1.
Proof.
  intros Hlt. unfold next_key, GoInt.add. apply GoInt_facts.wrap_small.
  unfold GoInt.in_range, GoInt.minInt, GoInt.maxInt, len in *. lia.
Qed.

Lemma effect_positive m resp m' :
  effect m resp m' -> len m < GoInt.maxInt -> positive_keys m ->
  positive_keys m' /\ len m' <= len m + 1.
Proof.
  intros He Hlt Hpos. destruct He as [resp _ | u _ | id u Hm].
  - split; [exact Hpos | lia].
  - split.
    + intros id. rewrite lookup_insert. case_decide as Hid.
      * intros _. subst id. rewrite next_key_small by exact Hlt. unfold len. lia.
      * apply Hpos.
    + unfold len. rewrite map_size_insert. destruct (m !! next_key m); simpl; lia.
  - split.
    + intros id'. rewrite lookup_delete. case_decide.
      * intros [? [=]].
      * apply Hpos.
    + unfold len. rewrite map_size_delete, Hm. simpl. lia.
Qed.

Lemma serve_all_positive rs : forall m,
  positive_keys m -> len m + Z.of_nat (length rs) <= GoInt.maxInt ->
  exists resps m',
    serve_all rs (idle m) = Some (resps, idle m') /\ positive_keys m'.
Proof.
  induction rs as [|r rs IH]; intros m Hpos Hlen.
  - exists [], m. split; [reflexivity | exact Hpos].
  - cbn [length] in Hlen. rewrite Nat2Z.inj_succ in Hlen.
    destruct (serve_effect r m) as (resp & m1 & Hs & He).
    destruct (effect_positive _ _ _ He ltac:(lia) Hpos) as [Hpos1 Hlen1].
    destruct (IH m1 Hpos1 ltac:(lia)) as (resps & m2 & Hss & Hpos2).
    exists (resp :: resps), m2. cbn [serve_all]. rewrite Hs, Hss.
    split; [reflexivity | exact Hpos2].
Qed.

(** *** Goroutines and the discipline *)

(** A step of a goroutine is the first action of running its code alone. *)
Lemma step_exec t g t' g' :
  step t g = Some (t', g') -> exec (code t) g = exec (code t') g'.
Proof.
  unfold step. destruct (code t); cbn [exec]; try discriminate;
    repeat match goal with
    | |- context [with_mutex ?g ?x] => destruct (with_mutex g x)
    end;
    try discriminate; intros [= <- <-]; reflexivity.
Qed.

(** A disciplined goroutine is never about to make an unguarded access, and
    stays disciplined when it steps. *)
Lemma disciplined_guarded t :
  disciplined (holds t) (code t) -> unguarded t = false.
Proof.
  unfold unguarded. destruct (code t); cbn; try reflexivity;
    intros [-> _]; reflexivity.
Qed.


(** Two concurrent deletes of the same id can both pass the lookup before
    either takes the lock; both then answer 204. *)
Lemma concurrent_deletes_both_succeed :
  exists g t0 t1,
    run_schedule [0; 1; 0; 0; 0; 1; 1; 1]%nat
      (idle {[1 := uA]}, [spawn (deleteUser "1"); spawn (deleteUser "1")])
    = Some (g, [t0; t1]) /\
    answer t0 = Some (WriteHeader StatusNoContent) /\
    answer t1 = Some (WriteHeader StatusNoContent).
Proof. eexists _, _, _. repeat split; reflexivity. Qed.


Lemma getUser_disciplined pathId : disciplined Unheld (getUser pathId).
Proof.
  unfold getUser. destruct (strconv.Atoi pathId) as [id|err]; cbn; [|reflexivity].
  split; [reflexivity|]. split; [reflexivity|].
  intros [user|]; cbn; auto.
Qed.

Lemma createUser_disciplined body : disciplined Unheld (createUser body).
Proof.
  unfold createUser. destruct (json.Decode body _) as [u [err|]]; cbn; [reflexivity|].
  destruct (String.eqb (Name u) ""); cbn; auto 10.
Qed.

Lemma deleteUser_undisciplined pathId id :
  strconv.Atoi pathId = inl id -> ~ disciplined Unheld (deleteUser pathId).
Proof. unfold deleteUser. intros ->. cbn. intros [? _]. discriminate. Qed.

(** ** The claims *)

(** C1 (the code departs from it).  Ids are meant never to be assigned
    twice.  In the code, Insert A is stored under id 1 and Insert B under
    id 2; after Delete 1 the cache holds B alone, [len(userCache)+1] is 2
    again, and Insert C is stored under id 2, the id B still has, not
    under 3. *)
Theorem id_assigned_twice_after_delete :
  next_key ∅ = 1 /\
  next_key {[1 := uA]} = 2 /\
  serve_all [POST_users (named "A"); POST_users (named "B");
             DELETE_users_id "1"] initial
  = Some ([WriteHeader StatusNoContent; WriteHeader StatusNoContent;
           WriteHeader StatusNoContent], idle {[2 := uB]}) /\
  next_key {[2 := uB]} = 2 /\
  serve (POST_users (named "C")) (idle {[2 := uB]})
  = Some (WriteHeader StatusNoContent, idle {[2 := uC]}) /\
  ({[2 := uC]} : gmap Z User) !! 3 = None.
Proof. repeat split; vm_compute; reflexivity. Qed.

(** C2 (the code departs from it).  Every access to the mapping is meant to
    happen under the guard.  [deleteUser] looks its id up before it takes
    the lock: the handler is not disciplined, and with [createUser] inside
    its exclusive section the lookup of a concurrent [deleteUser] still
    goes through. *)
Theorem deleteUser_reads_outside_guard :
  ~ disciplined Unheld (deleteUser "1") /\
  exists g t0 t1,
    run_schedule [1%nat]
      (idle {[1 := uA]},
       [spawn (deleteUser "1"); spawn (createUser (named "B"))])
    = Some (g, [t0; t1]) /\
    sync.writer (cacheMutex g) = true /\
    holds t1 = Exclusive /\
    holds t0 = Unheld /\
    next_access (code t0) = Some Read /\
    unguarded t0 = true /\
    is_Some (step t0 g).
Proof.
  split.
  - apply (deleteUser_undisciplined "1" 1). reflexivity.
  - eexists _, _, _. split; [reflexivity|].
    repeat split; try reflexivity. eexists. reflexivity.
Qed.

(** C3.  For every cache and every record with a non-empty name, Insert of
    the record followed by Get with the id the Insert stored it under
    answers 200 with the JSON of that record; the id has a path parameter
    (its decimal form), and the JSON decodes to the record inserted. *)
Theorem insert_then_get m body u :
  json.Decode body {| Name := "" |} = (u, None) -> Name u <> "" ->
  strconv.Atoi (strconv.Itoa (next_key m)) = inl (next_key m) /\
  forall pathId, strconv.Atoi pathId = inl (next_key m) ->
    exists m' j,
      serve (POST_users body) (idle m)
      = Some (WriteHeader StatusNoContent, idle m') /\
      m' !! next_key m = Some u /\
      serve (GET_users_id pathId) (idle m')
      = Some ({| StatusCode := StatusOK;
                 ContentType := Some "application/json";
                 Body := Json j |}, idle m') /\
      j = json.Object [("name", json.Str (Name u))] /\
      json.Decode (json.Text j) {| Name := "" |} = (u, None).
Proof.
  intros Hd Hn. split.
  - apply strconv_facts.Atoi_Itoa. apply GoInt_facts.wrap_in_range.
  - intros pathId Ha.
    exists (<[next_key m := u]> m), (json.Object [("name", json.Str (Name u))]).
    assert (Hl : <[next_key m := u]> m !! next_key m = Some u)
      by apply lookup_insert_eq.
    split; [apply (createUser_stores m _ _ Hd Hn)|].
    split; [exact Hl|].
    split; [apply (getUser_present _ _ _ _ Ha Hl)|].
    split; [reflexivity|].
    apply json_facts.Decode_Marshal_User, json_facts.Marshal_User.
Qed.

Lemma insert_then_get_witness :
  exists m' j,
    serve (POST_users (named "A")) (idle ∅)
    = Some (WriteHeader StatusNoContent, idle m') /\
    m' !! next_key ∅ = Some uA /\
    serve (GET_users_id "1") (idle m')
    = Some ({| StatusCode := StatusOK;
               ContentType := Some "application/json";
               Body := Json j |}, idle m') /\
    j = json.Object [("name", json.Str (Name uA))] /\
    json.Decode (json.Text j) {| Name := "" |} = (uA, None).
Proof.
  apply (proj2 (insert_then_get ∅ (named "A") uA
                  ltac:(reflexivity) ltac:(vm_compute; discriminate)) "1").
  reflexivity.
Defined.

(** C4.  For every path parameter that parses to an id absent from the
    cache, Get and Delete answer 404 and leave the cache as it was; and
    after a Delete of any id, present or not, Get of that id answers 404. *)
Theorem absent_id_not_found m pathId id :
  strconv.Atoi pathId = inl id ->
  (m !! id = None ->
   serve (GET_users_id pathId) (idle m) = Some (user_not_found, idle m) /\
   serve (DELETE_users_id pathId) (idle m) = Some (user_not_found, idle m)) /\
  (exists resp m',
     serve (DELETE_users_id pathId) (idle m) = Some (resp, idle m') /\
     m' !! id = None /\
     serve (GET_users_id pathId) (idle m') = Some (user_not_found, idle m')).
Proof.
  intros Ha. split.
  - intros Hm. split.
    + apply (getUser_absent _ _ _ Ha Hm).
    + apply (deleteUser_absent _ _ _ Ha Hm).
  - destruct (m !! id) as [u|] eqn:Hm.
    + exists (WriteHeader StatusNoContent), (delete id m).
      assert (Hd : delete id m !! id = None) by apply lookup_delete_eq.
      split; [apply (deleteUser_present _ _ _ _ Ha Hm)|].
      split; [exact Hd|]. apply (getUser_absent _ _ _ Ha Hd).
    + exists user_not_found, m.
      split; [apply (deleteUser_absent _ _ _ Ha Hm)|].
      split; [exact Hm|]. apply (getUser_absent _ _ _ Ha Hm).
Qed.

Lemma absent_id_not_found_witness :
  serve (GET_users_id "7") (idle {[1 := uA]})
  = Some (user_not_found, idle {[1 := uA]}) /\
  serve (DELETE_users_id "7") (idle {[1 := uA]})
  = Some (user_not_found, idle {[1 := uA]}).
Proof.
  apply (proj1 (absent_id_not_found {[1 := uA]} "7" 7 ltac:(reflexivity))).
  reflexivity.
Defined.

(** C5.  For every cache, a POST whose decoded user has an empty name is
    answered 400 and the cache is left as it was. *)
Theorem empty_name_rejected m body u :
  json.Decode body {| Name := "" |} = (u, None) -> Name u = "" ->
  serve (POST_users body) (idle m)
  = Some (Error (Plain "name is required") StatusBadRequest, idle m).
Proof.
  intros Hd Hn. unfold serve, mux.
  rewrite (createUser_no_name _ _ Hd Hn). reflexivity.
Qed.

Lemma empty_name_rejected_witness :
  serve (POST_users (named "")) (idle {[1 := uA]})
  = Some (Error (Plain "name is required") StatusBadRequest,
          idle {[1 := uA]}).
Proof.
  apply (empty_name_rejected {[1 := uA]} (named "") {| Name := "" |});
    reflexivity.
Defined.

(** C6.  No handler answers 500: a [User] always marshals, so run alone on
    any cache every request is answered with a status other than 500, and
    Get of a present id is answered 200 with the JSON of its record. *)
Theorem no_internal_server_error :
  (forall u,
     json.Marshal (json.reflect_User u)
     = inl (json.Object [("name", json.Str (Name u))])) /\
  (forall r m,
     exists resp m',
       serve r (idle m) = Some (resp, idle m') /\
       StatusCode resp <> StatusInternalServerError) /\
  (forall m pathId id u,
     strconv.Atoi pathId = inl id -> m !! id = Some u ->
     serve (GET_users_id pathId) (idle m)
     = Some ({| StatusCode := StatusOK;
                ContentType := Some "application/json";
                Body := Json (json.Object [("name", json.Str (Name u))]) |},
             idle m)).
Proof.
  split; [exact json_facts.Marshal_User|]. split.
  - intros r m. destruct (serve_effect r m) as (resp & m' & Hs & He).
    exists resp, m'. split; [exact Hs|].
    destruct He; [assumption | discriminate | discriminate].
  - intros m pathId id u Ha Hm. apply (getUser_present _ _ _ _ Ha Hm).
Qed.

Lemma no_internal_server_error_witness :
  serve (GET_users_id "1") (idle {[1 := uA]})
  = Some ({| StatusCode := StatusOK;
             ContentType := Some "application/json";
             Body := Json (json.Object [("name", json.Str (Name uA))]) |},
          idle {[1 := uA]}).
Proof.
  apply (proj2 (proj2 no_internal_server_error) {[1 := uA]} "1" 1 uA);
    reflexivity.
Defined.

(** C7.  Starting from the empty cache, after any list of requests served
    one after the other (as many as an [int] can count) every id in the
    cache is positive. *)
Theorem ids_positive rs :
  Z.of_nat (length rs) <= GoInt.maxInt ->
  exists resps m,
    serve_all rs initial = Some (resps, idle m) /\
    forall id u, m !! id = Some u -> 0 < id.
Proof.
  intros Hlen.
  destruct (serve_all_positive rs ∅) as (resps & m & Hs & Hpos).
  - intros id [u Hu]. rewrite lookup_empty in Hu. discriminate.
  - unfold len. rewrite map_size_empty. lia.
  - exists resps, m. split; [exact Hs|].
    intros id u Hu. apply Hpos. exists u. exact Hu.
Qed.

Lemma ids_positive_witness :
  exists resps m,
    serve_all [POST_users (named "A"); POST_users (named "B");
               DELETE_users_id "1"; GET_users_id "2";
               POST_users (named "C")] initial
    = Some (resps, idle m) /\
    forall id u, m !! id = Some u -> 0 < id.
Proof.
  apply (ids_positive [POST_users (named "A"); POST_users (named "B");
                       DELETE_users_id "1"; GET_users_id "2";
                       POST_users (named "C")]).
  unfold GoInt.maxInt. simpl. lia.
Defined.

(** C8.  For every path parameter [strconv.Atoi] rejects, [getUser] and
    [deleteUser] are a bare return of 400 with the parse error: whatever
    the globals, they answer 400 and perform no action on the cache or the
    mutex. *)
Theorem malformed_id_bad_request pathId err :
  strconv.Atoi pathId = inr err ->
  getUser pathId = Ret (Error (ErrorText err) StatusBadRequest) /\
  deleteUser pathId = Ret (Error (ErrorText err) StatusBadRequest) /\
  forall g,
    serve (GET_users_id pathId) g
    = Some (Error (ErrorText err) StatusBadRequest, g) /\
    serve (DELETE_users_id pathId) g
    = Some (Error (ErrorText err) StatusBadRequest, g).
Proof.
  intros Ha.
  pose proof (getUser_bad _ _ Ha) as Hg.
  pose proof (deleteUser_bad _ _ Ha) as Hd.
  split; [exact Hg|]. split; [exact Hd|].
  intros g. unfold serve, mux. rewrite Hg, Hd. split; reflexivity.
Qed.

Lemma malformed_id_bad_request_witness :
  getUser "abc"
  = Ret (Error (ErrorText (NumError "Atoi" "abc" ErrSyntax)) StatusBadRequest) /\
  deleteUser "abc"
  = Ret (Error (ErrorText (NumError "Atoi" "abc" ErrSyntax)) StatusBadRequest) /\
  forall g,
    serve (GET_users_id "abc") g
    = Some (Error (ErrorText (NumError "Atoi" "abc" ErrSyntax))
              StatusBadRequest, g) /\
    serve (DELETE_users_id "abc") g
    = Some (Error (ErrorText (NumError "Atoi" "abc" ErrSyntax))
              StatusBadRequest, g).
Proof.
  apply (malformed_id_bad_request "abc" (NumError "Atoi" "abc" ErrSyntax)).
  reflexivity.
Defined.

(** C9.  There is a list of requests, all answered 2xx (Insert A, Insert B,
    Delete 1, Insert C), after which a POST answered 204 stores its user
    under a key the cache already has: the user that was there is replaced
    and the cache has as many entries as before. *)
Theorem insert_can_overwrite :
  exists rs resps m body u old m',
    serve_all rs initial = Some (resps, idle m) /\
    Forall (fun resp => 200 <= StatusCode resp < 300) resps /\
    json.Decode body {| Name := "" |} = (u, None) /\
    m !! next_key m = Some old /\ old <> u /\
    serve (POST_users body) (idle m)
    = Some (WriteHeader StatusNoContent, idle m') /\
    m' !! next_key m = Some u /\
    size m' = size m.
Proof.
  exists [POST_users (named "A"); POST_users (named "B");
          DELETE_users_id "1"; POST_users (named "C")].
  exists [WriteHeader StatusNoContent; WriteHeader StatusNoContent;
          WriteHeader StatusNoContent; WriteHeader StatusNoContent].
  exists {[2 := uC]}, (named "D"), {| Name := "D" |}, uC, {[2 := {| Name := "D" |}]}.
  split; [vm_compute; reflexivity|].
  split; [repeat constructor; vm_compute; discriminate|].
  split; [reflexivity|].
  split; [reflexivity|].
  split; [discriminate|].
  split; [vm_compute; reflexivity|].
  split; reflexivity.
Qed.

(** C10.  Every [int] id that is zero or negative has a path parameter that
    parses to it (its decimal form), so it is not answered 400; and after
    any list of requests served from the empty cache (as many as an [int]
    can count), Get and Delete with a path parameter that parses to that id
    answer 404. *)
Theorem nonpositive_id_not_found id :
  GoInt.minInt <= id <= 0 ->
  strconv.Atoi (strconv.Itoa id) = inl id /\
  forall pathId rs,
    strconv.Atoi pathId = inl id ->
    Z.of_nat (length rs) <= GoInt.maxInt ->
    exists resps m,
      serve_all rs initial = Some (resps, idle m) /\
      serve (GET_users_id pathId) (idle m) = Some (user_not_found, idle m) /\
      serve (DELETE_users_id pathId) (idle m) = Some (user_not_found, idle m).
Proof.
  intros Hid. split.
  - apply strconv_facts.Atoi_Itoa.
    unfold GoInt.in_range, GoInt.minInt, GoInt.maxInt in *. lia.
  - intros pathId rs Ha Hlen.
    destruct (serve_all_positive rs ∅) as (resps & m & Hs & Hpos).
    + intros k [u Hu]. rewrite lookup_empty in Hu. discriminate.
    + unfold len. rewrite map_size_empty. lia.
    + assert (Hm : m !! id = None).
      { destruct (m !! id) as [u|] eqn:Hm; [|reflexivity].
        assert (0 < id) by (apply Hpos; rewrite Hm; eauto). lia. }
      exists resps, m. split; [exact Hs|]. split.
      * apply (getUser_absent _ _ _ Ha Hm).
      * apply (deleteUser_absent _ _ _ Ha Hm).
Qed.

Lemma nonpositive_id_not_found_witness :
  exists resps m,
    serve_all [POST_users (named "A"); POST_users (named "B")] initial
    = Some (resps, idle m) /\
    serve (GET_users_id "-3") (idle m) = Some (user_not_found, idle m) /\
    serve (DELETE_users_id "-3") (idle m) = Some (user_not_found, idle m).
Proof.
  apply (proj2 (nonpositive_id_not_found (-3)
                  ltac:(unfold GoInt.minInt; simpl; lia))
           "-3" [POST_users (named "A"); POST_users (named "B")]).
  - reflexivity.
  - unfold GoInt.maxInt. simpl. lia.
Defined.

(** What one request does, by route. *)
Lemma serve_cases r m :
  exists resp m',
    serve r (idle m) = Some (resp, idle m') /\
    In (StatusCode resp) (statuses (route_of r)) /\
    ((StatusCode resp <> StatusNoContent /\ m' = m) \/
     (resp = WriteHeader StatusNoContent /\
      ((exists body u, r = POST_users body /\
          json.Decode body {| Name := "" |} = (u, None) /\ Name u <> "" /\
          m' = <[next_key m := u]> m) \/
       (exists pathId id u, r = DELETE_users_id pathId /\
          strconv.Atoi pathId = inl id /\ m !! id = Some u /\
          m' = delete id m)))).
Proof.
  destruct r as [body | pathId | pathId | ]; unfold serve, mux.
  - destruct (json.Decode body {| Name := "" |}) as [u [err|]] eqn:Hd.
    + rewrite (createUser_decode_error _ _ _ Hd).
      eexists _, m. split; [reflexivity|]. split; [cbn; auto|].
      left. split; [discriminate | reflexivity].
    + destruct (String.eqb_spec (Name u) "") as [He|Hne].
      * rewrite (createUser_no_name _ _ Hd He).
        eexists _, m. split; [reflexivity|]. split; [cbn; auto|].
        left. split; [discriminate | reflexivity].
      * rewrite (createUser_stores m _ _ Hd Hne).
        eexists _, _. split; [reflexivity|]. split; [cbn; auto|].
        right. split; [reflexivity|]. left. eauto 10.
  - destruct (strconv.Atoi pathId) as [id|err] eqn:Ha.
    + destruct (m !! id) as [u|] eqn:Hm.
      * rewrite (getUser_present m _ _ _ Ha Hm).
        eexists _, m. split; [reflexivity|]. split; [cbn; auto|].
        left. split; [discriminate | reflexivity].
      * rewrite (getUser_absent m _ _ Ha Hm).
        eexists _, m. split; [reflexivity|]. split; [cbn; auto|].
        left. split; [discriminate | reflexivity].
    + rewrite (getUser_bad _ _ Ha).
      eexists _, m. split; [reflexivity|]. split; [cbn; auto|].
      left. split; [discriminate | reflexivity].
  - destruct (strconv.Atoi pathId) as [id|err] eqn:Ha.
    + destruct (m !! id) as [u|] eqn:Hm.
      * rewrite (deleteUser_present m _ _ _ Ha Hm).
        eexists _, _. split; [reflexivity|]. split; [cbn; auto|].
        right. split; [reflexivity|]. right. eauto 10.
      * rewrite (deleteUser_absent m _ _ Ha Hm).
        eexists _, m. split; [reflexivity|]. split; [cbn; auto|].
        left. split; [discriminate | reflexivity].
    + rewrite (deleteUser_bad _ _ Ha).
      eexists _, m. split; [reflexivity|]. split; [cbn; auto|].
      left. split; [discriminate | reflexivity].
  - eexists _, m. split; [reflexivity|]. split; [cbn; auto|].
    left. split; [discriminate | reflexivity].
Qed.

(** Run alone from idle globals, a list of requests is served to the end,
    and a property of the cache that every request keeps holds at the end. *)
Lemma serve_all_keeps (P : gmap Z User -> Prop) :
  (forall r m resp m', P m -> serve r (idle m) = Some (resp, idle m') -> P m') ->
  forall rs m, P m ->
    exists resps m', serve_all rs (idle m) = Some (resps, idle m') /\ P m'.
Proof.
  intros Hstep rs. induction rs as [|r rs IH]; intros m HP.
  - exists [], m. split; [reflexivity | exact HP].
  - destruct (serve_cases r m) as (resp & m1 & Hs & _).
    destruct (IH m1 (Hstep _ _ _ _ HP Hs)) as (resps & m2 & Hss & HP2).
    exists (resp :: resps), m2. cbn [serve_all]. rewrite Hs, Hss.
    split; [reflexivity | exact HP2].
Qed.

Lemma idle_inj m m' : idle m = idle m' -> m = m'.
Proof. intros [= ->]. reflexivity. Qed.

(** Reading [serve_cases] backwards from a given result. *)
Lemma serve_inv r m resp g :
  serve r (idle m) = Some (resp, g) ->
  exists m', g = idle m' /\
    In (StatusCode resp) (statuses (route_of r)) /\
    ((StatusCode resp <> StatusNoContent /\ m' = m) \/
     (resp = WriteHeader StatusNoContent /\
      ((exists body u, r = POST_users body /\
          json.Decode body {| Name := "" |} = (u, None) /\ Name u <> "" /\
          m' = <[next_key m := u]> m) \/
       (exists pathId id u, r = DELETE_users_id pathId /\
          strconv.Atoi pathId = inl id /\ m !! id = Some u /\
          m' = delete id m)))).
Proof.
  intros Hs. destruct (serve_cases r m) as (resp' & m' & Hs' & Hst & Hc).
  rewrite Hs in Hs'. injection Hs' as -> ->. exists m'. auto.
Qed.

Lemma len_insert_fresh (m : gmap Z User) k u :
  m !! k = None -> len (<[k := u]> m) = len m + 1.
Proof. intros Hk. unfold len. rewrite map_size_insert_None by exact Hk. lia. Qed.

Lemma len_delete_present (m : gmap Z User) k u :
  m !! k = Some u -> len (delete k m) = len m - 1.
Proof.
  intros Hk. unfold len. rewrite map_size_delete, Hk. cbn.
  assert (size m <> 0%nat).
  { intros Hz. apply map_size_empty_inv in Hz. subst m.
    rewrite lookup_empty in Hk. discriminate. }
  lia.
Qed.

Lemma dense_fresh m : dense m -> len m < GoInt.maxInt -> m !! next_key m = None.
Proof.
  intros Hd Hlt. rewrite next_key_small by exact Hlt.
  destruct (m !! (len m + 1)) as [u|] eqn:Hm; [|reflexivity].
  assert (1 <= len m + 1 <= len m) by (apply Hd; rewrite Hm; eauto). lia.
Qed.

Lemma dense_insert m u :
  dense m -> len m < GoInt.maxInt -> dense (<[next_key m := u]> m).
Proof.
  intros Hd Hlt id.
  rewrite (len_insert_fresh _ _ _ (dense_fresh _ Hd Hlt)).
  rewrite lookup_insert, next_key_small by exact Hlt.
  case_decide as Hid.
  - subst id. split; [intros _; unfold len; lia | eauto].
  - rewrite (Hd id). lia.
Qed.

Lemma dense_empty : dense ∅.
Proof.
  intros id. rewrite lookup_empty. unfold len. rewrite map_size_empty.
  split; [intros [? [=]] | lia].
Qed.

Lemma accepted_cons resp resps :
  Z.of_nat (accepted (resp :: resps))
  = (if StatusCode resp =? StatusNoContent then 1 else 0)
    + Z.of_nat (accepted resps).
Proof.
  unfold accepted. cbn [List.filter].
  destruct (StatusCode resp =? StatusNoContent); cbn [length]; lia.
Qed.

Lemma serve_all_no_delete rs : forall m,
  dense m -> forallb (fun r => negb (is_delete r)) rs = true ->
  len m + Z.of_nat (length rs) <= GoInt.maxInt ->
  exists resps m',
    serve_all rs (idle m) = Some (resps, idle m') /\
    m ⊆ m' /\ dense m' /\ len m' = len m + Z.of_nat (accepted resps).
Proof.
  induction rs as [|r rs IH]; intros m Hd Hnd Hlen.
  - exists [], m. split; [reflexivity|]. split; [done|]. split; [exact Hd|].
    unfold accepted. cbn. lia.
  - cbn [forallb] in Hnd. apply andb_true_iff in Hnd as [Hr Hnd].
    cbn [length] in Hlen. rewrite Nat2Z.inj_succ in Hlen.
    assert (Hlt : len m < GoInt.maxInt) by (unfold len in *; lia).
    destruct (serve_cases r m) as (resp & m1 & Hs & _ & Hc).
    assert (H1 : m ⊆ m1 /\ dense m1 /\
                 len m1 = len m + (if StatusCode resp =? StatusNoContent then 1 else 0)).
    { destruct Hc as [[Hne ->] | [-> [(body & u & -> & _ & _ & ->) | (p & id & u & -> & _)]]].
      - split; [done|]. split; [exact Hd|].
        destruct (Z.eqb_spec (StatusCode resp) StatusNoContent); [contradiction|lia].
      - split; [apply insert_subseteq, dense_fresh; assumption|].
        split; [apply dense_insert; assumption|].
        rewrite (len_insert_fresh _ _ _ (dense_fresh _ Hd Hlt)). reflexivity.
      - discriminate Hr. }
    destruct H1 as (Hsub & Hd1 & Hl1).
    destruct (IH m1 Hd1 Hnd) as (resps & m2 & Hss & Hsub2 & Hd2 & Hl2).
    { destruct (StatusCode resp =? StatusNoContent); lia. }
    exists (resp :: resps), m2. cbn [serve_all]. rewrite Hs, Hss.
    split; [reflexivity|]. split; [etrans; eassumption|]. split; [exact Hd2|].
    rewrite accepted_cons. lia.
Qed.

(** ** Further properties of the handlers, one request at a time *)

(** X1.  Run alone on any cache, a request is answered with one of the
    statuses of its route: 204 or 400 for POST /users; 200, 400 or 404 for
    GET /users/{id}; 204, 400 or 404 for DELETE /users/{id}; 200 for every
    other request.  Each of these statuses is answered for some input. *)
Theorem statuses_by_route :
  (forall r m,
     exists resp m',
       serve r (idle m) = Some (resp, idle m') /\
       In (StatusCode resp) (statuses (route_of r))) /\
  (forall rt code, In code (statuses rt) ->
     exists r m resp g,
       route_of r = rt /\
       serve r (idle m) = Some (resp, g) /\ StatusCode resp = code).
Proof.
  split.
  - intros r m. destruct (serve_cases r m) as (resp & m' & Hs & Hin & _).
    eauto.
  - intros rt code Hin.
    destruct rt; cbn in Hin;
      repeat (destruct Hin as [<- | Hin]); try destruct Hin.
    + exists (POST_users (named "A")), ∅. eexists _, _.
      repeat split; reflexivity.
    + exists (POST_users json.Empty), ∅. eexists _, _.
      repeat split; reflexivity.
    + exists (GET_users_id "1"), {[1 := uA]}. eexists _, _.
      repeat split; reflexivity.
    + exists (GET_users_id "x"), ∅. eexists _, _.
      repeat split; reflexivity.
    + exists (GET_users_id "1"), ∅. eexists _, _.
      repeat split; reflexivity.
    + exists (DELETE_users_id "1"), {[1 := uA]}. eexists _, _.
      repeat split; reflexivity.
    + exists (DELETE_users_id "x"), ∅. eexists _, _.
      repeat split; reflexivity.
    + exists (DELETE_users_id "1"), ∅. eexists _, _.
      repeat split; reflexivity.
    + exists Other, ∅. eexists _, _. repeat split; reflexivity.
Qed.

Lemma statuses_by_route_witness :
  exists r m resp g,
    route_of r = GET_user_route /\
    serve r (idle m) = Some (resp, g) /\ StatusCode resp = StatusNotFound.
Proof.
  apply (proj2 statuses_by_route GET_user_route StatusNotFound).
  cbn. auto.
Defined.

(** X2.  The cache changes only when the answer is 204: a request answered
    with any other status leaves the cache, and the mutex, as they were. *)
Theorem only_204_changes_cache r m resp g :
  serve r (idle m) = Some (resp, g) ->
  StatusCode resp <> StatusNoContent ->
  g = idle m.
Proof.
  intros Hs Hne.
  destruct (serve_inv _ _ _ _ Hs) as (m' & -> & _ & [[_ ->] | [-> _]]).
  - reflexivity.
  - contradiction Hne. reflexivity.
Qed.

Lemma only_204_changes_cache_witness :
  serve (DELETE_users_id "2") (idle {[1 := uA]})
  = Some (user_not_found, idle {[1 := uA]}) /\
  idle {[1 := uA]} = idle {[1 := uA]}.
Proof.
  split; [reflexivity|].
  apply (only_204_changes_cache (DELETE_users_id "2") {[1 := uA]}
           user_not_found (idle {[1 := uA]})).
  - reflexivity.
  - vm_compute. discriminate.
Defined.


(** X4.  DELETE of a present id is answered 204 and removes that id and no
    other: the id is gone, every other id keeps its record, the cache has
    one entry less, and the same DELETE again is answered 404. *)
Theorem delete_removes_only_its_id m pathId id u :
  strconv.Atoi pathId = inl id -> m !! id = Some u ->
  exists m',
    serve (DELETE_users_id pathId) (idle m)
    = Some (WriteHeader StatusNoContent, idle m') /\
    m' !! id = None /\
    (forall id', id' <> id -> m' !! id' = m !! id') /\
    len m' = len m - 1 /\
    serve (DELETE_users_id pathId) (idle m') = Some (user_not_found, idle m').
Proof.
  intros Ha Hm. exists (delete id m).
  assert (Hd : delete id m !! id = None) by apply lookup_delete_eq.
  split; [apply (deleteUser_present _ _ _ _ Ha Hm)|].
  split; [exact Hd|].
  split; [intros id' Hne; apply lookup_delete_ne; congruence|].
  split; [apply (len_delete_present _ _ _ Hm)|].
  apply (deleteUser_absent _ _ _ Ha Hd).
Qed.

Lemma delete_removes_only_its_id_witness :
  exists m',
    serve (DELETE_users_id "1") (idle {[1 := uA; 2 := uB]})
    = Some (WriteHeader StatusNoContent, idle m') /\
    m' !! 1 = None /\
    (forall id', id' <> 1 -> m' !! id' = ({[1 := uA; 2 := uB]} : gmap Z User) !! id') /\
    len m' = len {[1 := uA; 2 := uB]} - 1 /\
    serve (DELETE_users_id "1") (idle m') = Some (user_not_found, idle m').
Proof.
  apply (delete_removes_only_its_id {[1 := uA; 2 := uB]} "1" 1 uA);
    reflexivity.
Defined.

(** X5.  Starting from the empty cache, whatever requests are served one
    after the other, every user in the cache has a non-empty name. *)
Theorem stored_names_not_empty rs :
  exists resps m,
    serve_all rs initial = Some (resps, idle m) /\
    forall id u, m !! id = Some u -> Name u <> "".
Proof.
  apply (serve_all_keeps named_users).
  - intros r m resp m' HP Hs.
    destruct (serve_inv _ _ _ _ Hs) as (m1 & Hg & _ & Hc).
    apply idle_inj in Hg. subst m1.
    destruct Hc as [[_ ->] | [_ [(body & u & _ & _ & Hn & ->) | (p & id & u & _ & _ & _ & ->)]]].
    + exact HP.
    + intros id' u'. rewrite lookup_insert. case_decide.
      * intros [= <-]. exact Hn.
      * apply HP.
    + intros id' u'. rewrite lookup_delete. case_decide; [discriminate|].
      apply HP.
  - intros id u. rewrite lookup_empty. discriminate.
Qed.

(** X6.  Without DELETE nothing is lost: from a cache whose ids are exactly
    1..len, a run with no DELETE request (as long as the count of entries
    fits an [int]) keeps every record under its id, ends in a cache whose
    ids are again exactly 1..len, and has grown by one entry for each 204:
    every accepted POST got the next unused id. *)
Theorem no_delete_keeps_records rs m :
  dense m ->
  forallb (fun r => negb (is_delete r)) rs = true ->
  len m + Z.of_nat (length rs) <= GoInt.maxInt ->
  exists resps m',
    serve_all rs (idle m) = Some (resps, idle m') /\
    (forall id u, m !! id = Some u -> m' !! id = Some u) /\
    dense m' /\
    len m' = len m + Z.of_nat (accepted resps).
Proof.
  intros Hd Hnd Hlen.
  destruct (serve_all_no_delete rs m Hd Hnd Hlen)
    as (resps & m' & Hs & Hsub & Hd' & Hl).
  exists resps, m'. split; [exact Hs|]. split; [|split; assumption].
  intros id u Hu. eapply lookup_weaken; eassumption.
Qed.

Lemma no_delete_keeps_records_witness :
  exists resps m',
    serve_all [POST_users (named "B"); GET_users_id "9"; POST_users (named "");
               POST_users (named "C")] (idle {[1 := uA]})
    = Some (resps, idle m') /\
    (forall id u, ({[1 := uA]} : gmap Z User) !! id = Some u -> m' !! id = Some u) /\
    dense m' /\
    len m' = len {[1 := uA]} + Z.of_nat (accepted resps).
Proof.
  apply (no_delete_keeps_records
           [POST_users (named "B"); GET_users_id "9"; POST_users (named "");
            POST_users (named "C")] {[1 := uA]}).
  - intros id. rewrite lookup_singleton. change (len {[1 := uA]}) with 1.
    case_decide; split; intros H'; try lia; eauto.
    destruct H' as [? [=]].
  - reflexivity.
  - vm_compute. discriminate.
Defined.

(** X7.  After a DELETE an insert overwrites: in a cache whose ids are
    exactly 1..len, deleting any id but the highest makes the next accepted
    POST store its user under the highest id, replacing the record that
    was there. *)
Theorem delete_then_insert_overwrites m pathId id body u :
  dense m -> len m <= GoInt.maxInt ->
  strconv.Atoi pathId = inl id -> 1 <= id < len m ->
  json.Decode body {| Name := "" |} = (u, None) -> Name u <> "" ->
  exists old m',
    m !! len m = Some old /\
    serve_all [DELETE_users_id pathId; POST_users body] (idle m)
    = Some ([WriteHeader StatusNoContent; WriteHeader StatusNoContent],
            idle m') /\
    m' = <[len m := u]> (delete id m) /\
    m' !! len m = Some u /\
    len m' = len m - 1.
Proof.
  intros Hd Hmax Ha Hid Hdec Hn.
  destruct (proj2 (Hd id) ltac:(lia)) as [v Hv].
  destruct (proj2 (Hd (len m)) ltac:(lia)) as [old Hold].
  assert (Hl : len (delete id m) = len m - 1)
    by apply (len_delete_present _ _ _ Hv).
  assert (Hk : next_key (delete id m) = len m).
  { rewrite next_key_small by lia. lia. }
  assert (Hold' : delete id m !! len m = Some old).
  { rewrite lookup_delete_ne by lia. exact Hold. }
  exists old, (<[len m := u]> (delete id m)).
  split; [exact Hold|]. split.
  - cbn [serve_all]. unfold serve at 1, mux.
    rewrite (deleteUser_present _ _ _ _ Ha Hv).
    unfold serve, mux. rewrite (createUser_stores _ _ _ Hdec Hn), Hk.
    reflexivity.
  - split; [reflexivity|]. split; [apply lookup_insert_eq|].
    unfold len at 1. rewrite map_size_insert, Hold'. cbn. fold (len (delete id m)).
    exact Hl.
Qed.

Lemma delete_then_insert_overwrites_witness :
  exists old m',
    ({[1 := uA; 2 := uB]} : gmap Z User) !! len {[1 := uA; 2 := uB]} = Some old /\
    serve_all [DELETE_users_id "1"; POST_users (named "C")]
      (idle {[1 := uA; 2 := uB]})
    = Some ([WriteHeader StatusNoContent; WriteHeader StatusNoContent],
            idle m') /\
    m' = <[len {[1 := uA; 2 := uB]} := uC]> (delete 1 {[1 := uA; 2 := uB]}) /\
    m' !! len {[1 := uA; 2 := uB]} = Some uC /\
    len m' = len {[1 := uA; 2 := uB]} - 1.
Proof.
  apply (delete_then_insert_overwrites {[1 := uA; 2 := uB]} "1" 1 (named "C") uC).
  - intros id. change (len {[1 := uA; 2 := uB]}) with 2.
    destruct (decide (id = 1)) as [->|H1]; [split; [lia | eauto]|].
    destruct (decide (id = 2)) as [->|H2]; [split; [lia | eauto]|].
    rewrite lookup_insert_ne, lookup_singleton_ne by congruence.
    split; [intros [? [=]] | lia].
  - vm_compute. discriminate.
  - reflexivity.
  - vm_compute. split; [discriminate | reflexivity].
  - reflexivity.
  - vm_compute. discriminate.
Defined.

(** X8.  Insert then Delete gives the cache back: when the id
    [len(userCache)+1] is unused, an accepted POST followed by a DELETE of
    that id is answered 204 twice and ends in the cache it started from. *)
Theorem insert_then_delete_restores m body u pathId :
  m !! next_key m = None ->
  json.Decode body {| Name := "" |} = (u, None) -> Name u <> "" ->
  strconv.Atoi pathId = inl (next_key m) ->
  serve_all [POST_users body; DELETE_users_id pathId] (idle m)
  = Some ([WriteHeader StatusNoContent; WriteHeader StatusNoContent], idle m).
Proof.
  intros Hfresh Hdec Hn Ha. cbn [serve_all]. unfold serve, mux.
  rewrite (createUser_stores _ _ _ Hdec Hn).
  rewrite (deleteUser_present _ _ _ u Ha) by apply lookup_insert_eq.
  rewrite delete_insert_eq, delete_id by exact Hfresh. reflexivity.
Qed.

Lemma insert_then_delete_restores_witness :
  serve_all [POST_users (named "B"); DELETE_users_id "2"] (idle {[1 := uA]})
  = Some ([WriteHeader StatusNoContent; WriteHeader StatusNoContent],
          idle {[1 := uA]}).
Proof.
  apply (insert_then_delete_restores {[1 := uA]} (named "B") uB "2").
  - reflexivity.
  - reflexivity.
  - vm_compute. discriminate.
  - reflexivity.
Defined.



Lemma hold_eqb_eq a b : hold_eqb a b = true <-> a = b.
Proof. destruct a, b; cbn; split; congruence. Qed.

Lemma disciplined_paired {R} (p : prog R) : forall h,
  disciplined h p -> paired h p.
Proof.
  induction p as [r|k IH|k IH|k IH|k IH|id k IH|k IH|id u k IH|id k IH];
    intros h; cbn; try tauto.
  - intros [? ?]; auto.
  - intros [? ?]; auto.
  - intros [? ?]; auto.
  - intros [? ?]; auto.
  - intros [_ Hk] v. auto.
  - intros [_ Hk] n. auto.
  - intros [Hc Hk]. destruct h; try discriminate. auto.
  - intros [Hc Hk]. destruct h; try discriminate. auto.
Qed.

Lemma deleteUser_paired pathId : paired Unheld (deleteUser pathId).
Proof.
  unfold deleteUser. destruct (strconv.Atoi pathId) as [id|err]; cbn; [|reflexivity].
  intros [u|]; cbn; auto.
Qed.

Lemma mux_paired r : paired Unheld (mux r).
Proof.
  destruct r; cbn [mux].
  - apply disciplined_paired, createUser_disciplined.
  - apply disciplined_paired, getUser_disciplined.
  - apply deleteUser_paired.
  - reflexivity.
Qed.

Lemma holders_insert h ts : forall i t t',
  ts !! i = Some t ->
  (holders h (<[i := t']> ts) + (if hold_eqb (holds t) h then 1 else 0)
   = holders h ts + (if hold_eqb (holds t') h then 1 else 0))%nat.
Proof.
  unfold holders. induction ts as [|a ts IH]; intros i t t' Hi; [discriminate|].
  destruct i as [|i]; cbn in Hi.
  - injection Hi as ->. change (<[0%nat := t']> (t :: ts)) with (t' :: ts).
    cbn [List.filter].
    destruct (hold_eqb (holds t) h), (hold_eqb (holds t') h); cbn [length]; lia.
  - specialize (IH i t t' Hi).
    change (<[S i := t']> (a :: ts)) with (a :: <[i := t']> ts).
    cbn [List.filter].
    destruct (hold_eqb (holds a) h); cbn [length]; lia.
Qed.

Lemma holders_insert_same h ts i t t' :
  ts !! i = Some t -> holds t' = holds t ->
  holders h (<[i := t']> ts) = holders h ts.
Proof.
  intros Hi Hh. pose proof (holders_insert h ts i t t' Hi) as H.
  rewrite Hh in H. lia.
Qed.

Lemma holders_lookup h ts i t :
  ts !! i = Some t -> holds t = h -> (1 <= holders h ts)%nat.
Proof.
  unfold holders. revert i. induction ts as [|a ts IH]; intros i Hi Hh; [discriminate|].
  destruct i as [|i]; cbn in Hi |- *.
  - injection Hi as ->. rewrite (proj2 (hold_eqb_eq _ _) Hh). cbn. lia.
  - specialize (IH i Hi Hh). destruct (hold_eqb (holds a) h); cbn; lia.
Qed.

Lemma holders_lookup2 h ts i j ti tj :
  i <> j -> ts !! i = Some ti -> ts !! j = Some tj ->
  holds ti = h -> holds tj = h -> (2 <= holders h ts)%nat.
Proof.
  revert i j. induction ts as [|a ts IH]; intros i j Hne Hi Hj Hhi Hhj; [discriminate|].
  destruct i as [|i], j as [|j]; try congruence; cbn in Hi, Hj.
  - injection Hi as ->. pose proof (holders_lookup h ts j tj Hj Hhj).
    unfold holders in *. cbn. rewrite (proj2 (hold_eqb_eq _ _) Hhi). cbn. lia.
  - injection Hj as ->. pose proof (holders_lookup h ts i ti Hi Hhi).
    unfold holders in *. cbn. rewrite (proj2 (hold_eqb_eq _ _) Hhj). cbn. lia.
  - assert (2 <= holders h ts)%nat by (eapply (IH i j); eauto).
    unfold holders in *. cbn. destruct (hold_eqb (holds a) h); cbn; lia.
Qed.

Lemma holders_zero h ts i t :
  holders h ts = 0%nat -> ts !! i = Some t -> holds t <> h.
Proof.
  intros Hz Hi Hh. pose proof (holders_lookup h ts i t Hi Hh). lia.
Qed.

Lemma holders_pool h rs : h <> Unheld -> holders h (pool rs) = 0%nat.
Proof.
  intros Hh. unfold holders, pool. induction rs as [|r rs IH]; [reflexivity|].
  cbn. destruct h; try congruence; exact IH.
Qed.

(** One step of one goroutine keeps the pairing and the agreement. *)
Lemma step_keeps_agreement g ts i t t' g' :
  paired (holds t) (code t) -> mutex_agrees g ts ->
  ts !! i = Some t -> step t g = Some (t', g') ->
  paired (holds t') (code t') /\ mutex_agrees g' (<[i := t']> ts).
Proof.
  intros Hp [Hr Hw] Hi Hs.
  pose proof (holders_insert Shared ts i t t' Hi) as HS.
  pose proof (holders_insert Exclusive ts i t t' Hi) as HE.
  pose proof (holders_lookup (holds t) ts i t Hi eq_refl) as H1.
  unfold mutex_agrees, step in *.
  destruct (code t) eqn:Hc; cbn [paired] in Hp; try discriminate.
  - (* Lock *)
    destruct Hp as [Hh Hp]. unfold sync.Lock in Hs.
    destruct (cacheMutex g) as [w n] eqn:Hm; cbn in *.
    destruct w; cbn in Hs; [discriminate|].
    destruct n; cbn in Hs; [|discriminate].
    injection Hs as <- <-. cbn. rewrite Hh in *. cbn in *.
    split; [exact Hp|]. lia.
  - (* Unlock *)
    destruct Hp as [Hh Hp]. unfold sync.Unlock in Hs.
    destruct (cacheMutex g) as [w n] eqn:Hm; cbn in *.
    destruct w; cbn in Hs; [|discriminate].
    injection Hs as <- <-. cbn. rewrite Hh in *. cbn in *.
    split; [exact Hp|]. lia.
  - (* RLock *)
    destruct Hp as [Hh Hp]. unfold sync.RLock in Hs.
    destruct (cacheMutex g) as [w n] eqn:Hm; cbn in *.
    destruct w; cbn in Hs; [discriminate|].
    injection Hs as <- <-. cbn. rewrite Hh in *. cbn in *.
    split; [exact Hp|]. lia.
  - (* RUnlock *)
    destruct Hp as [Hh Hp]. unfold sync.RUnlock in Hs.
    destruct (cacheMutex g) as [w n] eqn:Hm; cbn in *.
    destruct n; cbn in Hs; [discriminate|].
    injection Hs as <- <-. cbn. rewrite Hh in *. cbn in *.
    split; [exact Hp|]. destruct w; lia.
  - (* MapIndex *)
    injection Hs as <- <-. split; [apply Hp|].
    rewrite !(holders_insert_same _ ts i t) by (exact Hi || reflexivity).
    split; assumption.
  - (* MapLen *)
    injection Hs as <- <-. split; [apply Hp|].
    rewrite !(holders_insert_same _ ts i t) by (exact Hi || reflexivity).
    split; assumption.
  - (* MapAssign *)
    injection Hs as <- <-. split; [apply Hp|].
    rewrite !(holders_insert_same _ ts i t) by (exact Hi || reflexivity).
    split; assumption.
  - (* MapDelete *)
    injection Hs as <- <-. split; [apply Hp|].
    rewrite !(holders_insert_same _ ts i t) by (exact Hi || reflexivity).
    split; assumption.
Qed.

(** A property of configurations kept by every step holds after every
    schedule. *)
Lemma run_schedule_keeps (I : config -> Prop) :
  (forall i c c', I c -> sched_step i c = Some c' -> I c') ->
  forall sched c c', I c -> run_schedule sched c = Some c' -> I c'.
Proof.
  intros Hstep sched. induction sched as [|i sched IH]; intros c c' HI Hr.
  - injection Hr as <-. exact HI.
  - cbn [run_schedule] in Hr.
    destruct (sched_step i c) as [c1|] eqn:Hs; [|discriminate].
    apply (IH c1 c'); [|exact Hr]. apply (Hstep i c c1 HI Hs).
Qed.

Lemma sched_step_inv i c c' :
  sched_step i c = Some c' ->
  exists t t', snd c !! i = Some t /\ step t (fst c) = Some (t', fst c') /\
               snd c' = <[i := t']> (snd c).
Proof.
  unfold sched_step. destruct (snd c !! i) as [t|]; [|discriminate].
  destruct (step t (fst c)) as [[t' g']|] eqn:Hs; [|discriminate].
  intros [= <-]. exists t, t'. auto.
Qed.

Lemma pool_ok_step i c c' : pool_ok c -> sched_step i c = Some c' -> pool_ok c'.
Proof.
  intros [Hall Hag] Hs.
  destruct (sched_step_inv _ _ _ Hs) as (t & t' & Hi & Hst & Hts).
  pose proof (Forall_lookup_1 _ _ _ _ Hall Hi) as Hp. cbn beta in Hp.
  destruct (step_keeps_agreement _ _ _ _ _ _ Hp Hag Hi Hst) as [Hp' Hag'].
  unfold pool_ok. rewrite Hts. split; [|exact Hag'].
  apply Forall_insert; assumption.
Qed.

Lemma pool_ok_initial m rs : pool_ok (idle m, pool rs).
Proof.
  split; cbn [fst snd].
  - unfold pool. apply Forall_map. apply Forall_forall. intros r _.
    apply mux_paired.
  - split; cbn; rewrite ?holders_pool by discriminate; reflexivity.
Qed.

Lemma pool_ok_reachable m rs sched c :
  run_schedule sched (idle m, pool rs) = Some c -> pool_ok c.
Proof.
  apply (run_schedule_keeps pool_ok pool_ok_step). apply pool_ok_initial.
Qed.

(** In an agreeing pool an exclusive holder is alone. *)
Lemma exclusive_alone g ts i j ti tj :
  mutex_agrees g ts -> i <> j ->
  ts !! i = Some ti -> ts !! j = Some tj ->
  holds ti = Exclusive -> holds tj = Unheld.
Proof.
  intros [Hr Hw] Hne Hi Hj Hh.
  pose proof (holders_lookup _ _ _ _ Hi Hh) as H1.
  destruct (sync.writer (cacheMutex g)); [|lia].
  destruct Hw as [HE HS].
  destruct (holds tj) eqn:Hj'; [reflexivity| |].
  - pose proof (holders_lookup _ _ _ _ Hj Hj'). lia.
  - pose proof (holders_lookup2 _ _ _ _ _ _ Hne Hi Hj Hh Hj'). lia.
Qed.

(** In an agreeing pool nobody holds the mutex exclusively while somebody
    holds it shared. *)
Lemma shared_excludes_exclusive g ts i j ti tj :
  mutex_agrees g ts ->
  ts !! i = Some ti -> ts !! j = Some tj ->
  holds ti = Shared -> holds tj <> Exclusive.
Proof.
  intros [Hr Hw] Hi Hj Hh Hj'.
  pose proof (holders_lookup _ _ _ _ Hi Hh).
  pose proof (holders_lookup _ _ _ _ Hj Hj').
  destruct (sync.writer (cacheMutex g)); lia.
Qed.

(** A goroutine of a paired, agreeing pool that has not returned and holds
    something can step; one that holds nothing can step when the mutex is
    free. *)
Lemma paired_can_step g ts i t :
  mutex_agrees g ts -> ts !! i = Some t ->
  paired (holds t) (code t) -> ~ answered t ->
  (holds t <> Unheld \/ cacheMutex g = sync.unlocked) ->
  is_Some (step t g).
Proof.
  intros [Hr Hw] Hi Hp Hna Hfree.
  pose proof (holders_lookup _ _ _ _ Hi eq_refl) as H1.
  unfold answered, answer, step in *.
  destruct (code t) eqn:Hc; cbn [paired] in Hp; try (eexists; reflexivity).
  - contradiction Hna. eauto.
  - destruct Hp as [Hh _]. destruct Hfree as [?|Hu]; [congruence|].
    rewrite Hu. cbn. eauto.
  - destruct Hp as [Hh _]. rewrite Hh in H1.
    unfold sync.Unlock. destruct (sync.writer (cacheMutex g)); [cbn; eauto | lia].
  - destruct Hp as [Hh _]. destruct Hfree as [?|Hu]; [congruence|].
    rewrite Hu. cbn. eauto.
  - destruct Hp as [Hh _]. rewrite Hh in H1.
    unfold sync.RUnlock. rewrite Hr.
    destruct (holders Shared ts); [lia | cbn; eauto].
Qed.

Lemma holders_unheld h ts :
  Forall (fun t => holds t = Unheld) ts -> h <> Unheld -> holders h ts = 0%nat.
Proof.
  intros Hun Hh. unfold holders.
  induction Hun as [|t ts' Ht _ IH]; [reflexivity|].
  cbn. rewrite Ht. destruct h; try congruence; exact IH.
Qed.

Lemma holds_nothing_dec t : {holds t = Unheld} + {holds t <> Unheld}.
Proof. destruct (holds t); [left | right | right]; congruence. Qed.

Lemma answered_dec t : {answered t} + {~ answered t}.
Proof.
  unfold answered. destruct (answer t); [left; eauto | right; intros [? [=]]].
Qed.

(** Progress: in a paired, agreeing pool either every goroutine has
    returned or one of them can step. *)
Lemma pool_ok_progress c :
  pool_ok c ->
  Forall answered (snd c) \/ exists i c', sched_step i c = Some c'.
Proof.
  destruct c as [g ts]. intros [Hall Hag]. cbn [fst snd] in *.
  destruct (Forall_Exists_dec (fun t => holds t = Unheld)
              (fun t => holds t <> Unheld) holds_nothing_dec ts)
    as [Hun | Hex].
  - (* nobody holds anything: the mutex is free *)
    assert (Hfree : cacheMutex g = sync.unlocked).
    { destruct Hag as [Hr Hw].
      pose proof (holders_unheld Shared ts Hun ltac:(discriminate)) as HS.
      pose proof (holders_unheld Exclusive ts Hun ltac:(discriminate)) as HE.
      destruct (cacheMutex g) as [w n]; cbn in *.
      destruct w; [lia|]. rewrite Hr, HS. reflexivity. }
    destruct (Forall_Exists_dec answered (fun t => ~ answered t)
                answered_dec ts)
      as [Hans | Hex]; [left; exact Hans | right].
    apply Exists_exists in Hex as (t & Hin & Hna).
    apply list_elem_of_lookup in Hin as [i Hi].
    pose proof (Forall_lookup_1 _ _ _ _ Hall Hi) as Hp. cbn beta in Hp.
    destruct (paired_can_step g ts i t Hag Hi Hp Hna (or_intror Hfree))
      as [[t' g'] Hs].
    exists i, (g', <[i := t']> ts). unfold sched_step. cbn [fst snd].
    rewrite Hi, Hs. reflexivity.
  - (* a holder can always go on *)
    right. apply Exists_exists in Hex as (t & Hin & Hh).
    apply list_elem_of_lookup in Hin as [i Hi].
    pose proof (Forall_lookup_1 _ _ _ _ Hall Hi) as Hp. cbn beta in Hp.
    assert (Hna : ~ answered t).
    { unfold answered, answer.
      destruct (code t); cbn [paired] in Hp; [|intros [? [=]] ..].
      contradiction. }
    destruct (paired_can_step g ts i t Hag Hi Hp Hna (or_introl Hh))
      as [[t' g'] Hs].
    exists i, (g', <[i := t']> ts). unfold sched_step. cbn [fst snd].
    rewrite Hi, Hs. reflexivity.
Qed.

Lemma mux_within r : within 4 (mux r).
Proof.
  destruct r as [body | pathId | pathId | ]; cbn [mux].
  - unfold createUser. destruct (json.Decode body _) as [u [err|]]; cbn; [exact I|].
    destruct (String.eqb (Name u) ""); cbn; auto.
  - unfold getUser. destruct (strconv.Atoi pathId); cbn; [|exact I].
    intros [u|]; cbn; exact I.
  - unfold deleteUser. destruct (strconv.Atoi pathId); cbn; [|exact I].
    intros [u|]; cbn; exact I.
  - exact I.
Qed.

Lemma step_within n t g t' g' :
  within n (code t) -> step t g = Some (t', g') ->
  exists n', n = S n' /\ within n' (code t').
Proof.
  unfold step. destruct (code t); cbn [within]; intros Hw Hs;
    repeat match type of Hs with
    | context [with_mutex ?g ?x] => destruct (with_mutex g x)
    end;
    try discriminate; injection Hs as <- <-;
    (destruct n as [|n]; [contradiction|]); exists n;
    (split; [reflexivity | first [exact Hw | apply Hw]]).
Qed.

Lemma sum_list_insert_pred bs : forall i n,
  bs !! i = Some (S n) -> (sum_list (<[i := n]> bs) + 1 = sum_list bs)%nat.
Proof.
  induction bs as [|b bs IH]; intros i n Hi; [discriminate|].
  destruct i as [|i]; cbn in Hi.
  - injection Hi as ->. cbn. lia.
  - specialize (IH i n Hi).
    change (<[S i := n]> (b :: bs)) with (b :: <[i := n]> bs). cbn. lia.
Qed.

Lemma budgeted_step i c c' bs :
  budgeted bs (snd c) -> sched_step i c = Some c' ->
  exists bs', budgeted bs' (snd c') /\ (sum_list bs' + 1 = sum_list bs)%nat.
Proof.
  intros Hb Hs.
  destruct (sched_step_inv _ _ _ Hs) as (t & t' & Hi & Hst & Hts).
  destruct (Forall2_lookup_r _ _ _ _ _ Hb Hi) as (b & Hbi & Hw).
  destruct (step_within _ _ _ _ _ Hw Hst) as (n' & -> & Hw').
  exists (<[i := n']> bs). split.
  - unfold budgeted. rewrite Hts. apply Forall2_insert; assumption.
  - apply sum_list_insert_pred. exact Hbi.
Qed.

Lemma budgeted_run sched : forall c c' bs,
  budgeted bs (snd c) -> run_schedule sched c = Some c' ->
  exists bs', budgeted bs' (snd c') /\
              (sum_list bs' + length sched = sum_list bs)%nat.
Proof.
  induction sched as [|i sched IH]; intros c c' bs Hb Hr.
  - injection Hr as <-. exists bs. split; [exact Hb | cbn; lia].
  - cbn [run_schedule] in Hr.
    destruct (sched_step i c) as [c1|] eqn:Hs; [|discriminate].
    destruct (budgeted_step _ _ _ _ Hb Hs) as (bs1 & Hb1 & Hsum1).
    destruct (IH _ _ _ Hb1 Hr) as (bs' & Hb' & Hsum).
    exists bs'. split; [exact Hb'|]. cbn [length]. lia.
Qed.

Lemma budgeted_initial rs : budgeted (replicate (length rs) 4%nat) (pool rs).
Proof.
  unfold budgeted, pool. induction rs as [|r rs IH]; cbn; constructor.
  - apply mux_within.
  - exact IH.
Qed.

Lemma run_schedule_app s1 : forall s2 c,
  run_schedule (s1 ++ s2) c
  = match run_schedule s1 c with
    | Some c1 => run_schedule s2 c1
    | None => None
    end.
Proof.
  induction s1 as [|i s1 IH]; intros s2 c; [reflexivity|].
  cbn. destruct (sched_step i c); [apply IH | reflexivity].
Qed.

(** When every goroutine of a paired, agreeing pool has returned, the
    mutex is unlocked. *)
Lemma all_answered_unlocked c :
  pool_ok c -> Forall answered (snd c) -> cacheMutex (fst c) = sync.unlocked.
Proof.
  destruct c as [g ts]. intros [Hall [Hr Hw]] Hans. cbn [fst snd] in *.
  assert (Hun : Forall (fun t => holds t = Unheld) ts).
  { apply Forall_forall. intros t Hin.
    pose proof (proj1 (Forall_forall _ _) Hall t Hin) as Hp.
    pose proof (proj1 (Forall_forall _ _) Hans t Hin) as Ha.
    cbn beta in Hp. unfold answered, answer in Ha.
    destruct (code t); cbn [paired] in Hp; try (destruct Ha as [? [=]]).
    exact Hp. }
  pose proof (holders_unheld Shared ts Hun ltac:(discriminate)) as HS.
  pose proof (holders_unheld Exclusive ts Hun ltac:(discriminate)) as HE.
  destruct (cacheMutex g) as [w n]; cbn in *.
  destruct w; [lia|]. rewrite Hr, HS. reflexivity.
Qed.

(** A paired, agreeing, budgeted pool can be run to the end. *)
Lemma pool_ok_finishes n : forall c bs,
  pool_ok c -> budgeted bs (snd c) -> (sum_list bs <= n)%nat ->
  exists sched c',
    run_schedule sched c = Some c' /\ pool_ok c' /\ Forall answered (snd c').
Proof.
  induction n as [|n IH]; intros c bs Hok Hb Hsum.
  - destruct (pool_ok_progress c Hok) as [Hans | (i & c1 & Hs)].
    + exists [], c. auto.
    + destruct (budgeted_step _ _ _ _ Hb Hs) as (bs1 & _ & Hs1). lia.
  - destruct (pool_ok_progress c Hok) as [Hans | (i & c1 & Hs)].
    + exists [], c. auto.
    + destruct (budgeted_step _ _ _ _ Hb Hs) as (bs1 & Hb1 & Hs1).
      destruct (IH c1 bs1 (pool_ok_step _ _ _ Hok Hs) Hb1 ltac:(lia))
        as (sched & c' & Hr & Hok' & Hans).
      exists (i :: sched), c'. cbn [run_schedule]. rewrite Hs. auto.
Qed.

(** ** Further properties of the handlers, run as goroutines *)

(** X10.  Mutual exclusion.  However the goroutines of any requests are
    interleaved, when one of them holds [cacheMutex] exclusively every
    other one holds nothing, and nobody holds it exclusively while another
    holds it shared. *)
Theorem exclusive_is_exclusive rs m sched g ts :
  run_schedule sched (idle m, pool rs) = Some (g, ts) ->
  forall i j ti tj,
    i <> j -> ts !! i = Some ti -> ts !! j = Some tj ->
    (holds ti = Exclusive -> holds tj = Unheld) /\
    (holds ti = Shared -> holds tj <> Exclusive).
Proof.
  intros Hr i j ti tj Hne Hi Hj.
  destruct (pool_ok_reachable _ _ _ _ Hr) as [_ Hag]. cbn [fst snd] in Hag.
  split.
  - apply (exclusive_alone g ts i j ti tj Hag Hne Hi Hj).
  - apply (shared_excludes_exclusive g ts i j ti tj Hag Hi Hj).
Qed.

Lemma exclusive_is_exclusive_witness :
  exists g ts ti tj,
    run_schedule [0%nat]
      (idle {[1 := uA]}, pool [POST_users (named "B"); GET_users_id "1"])
    = Some (g, ts) /\
    ts !! 0%nat = Some ti /\ ts !! 1%nat = Some tj /\
    holds ti = Exclusive /\ holds tj = Unheld.
Proof.
  eexists _, _, _, _.
  split; [reflexivity|]. split; [reflexivity|]. split; [reflexivity|].
  split; [reflexivity|].
  refine (proj1 (exclusive_is_exclusive
                   [POST_users (named "B"); GET_users_id "1"] {[1 := uA]}
                   [0%nat] _ _ eq_refl 0%nat 1%nat _ _ _ eq_refl eq_refl) _).
  - lia.
  - reflexivity.
Defined.

(** X11.  Writes are guarded in every handler.  However the goroutines of
    any requests are interleaved, a goroutine about to assign to or delete
    from [userCache] holds [cacheMutex] exclusively, and the mutex has its
    writer flag set. *)
Theorem writes_hold_the_lock rs m sched g ts i t :
  run_schedule sched (idle m, pool rs) = Some (g, ts) ->
  ts !! i = Some t -> next_access (code t) = Some Write ->
  holds t = Exclusive /\ sync.writer (cacheMutex g) = true.
Proof.
  intros Hr Hi Hw.
  destruct (pool_ok_reachable _ _ _ _ Hr) as [Hall [_ Hag]].
  cbn [fst snd] in *.
  pose proof (Forall_lookup_1 _ _ _ _ Hall Hi) as Hp. cbn beta in Hp.
  assert (Hh : holds t = Exclusive).
  { destruct (code t); cbn in Hw; try discriminate; cbn in Hp; apply Hp. }
  split; [exact Hh|].
  pose proof (holders_lookup _ _ _ _ Hi Hh).
  destruct (sync.writer (cacheMutex g)); [reflexivity | lia].
Qed.

Lemma writes_hold_the_lock_witness :
  exists g ts t,
    run_schedule [0; 0]%nat
      (idle {[1 := uA]}, pool [DELETE_users_id "1"; GET_users_id "1"])
    = Some (g, ts) /\
    ts !! 0%nat = Some t /\ next_access (code t) = Some Write /\
    holds t = Exclusive /\ sync.writer (cacheMutex g) = true.
Proof.
  eexists _, _, _.
  split; [reflexivity|]. split; [reflexivity|]. split; [reflexivity|].
  refine (writes_hold_the_lock
            [DELETE_users_id "1"; GET_users_id "1"] {[1 := uA]}
            [0; 0]%nat _ _ 0%nat _ eq_refl eq_refl _).
  reflexivity.
Defined.

(** X12.  No deadlock.  However the goroutines of any requests have been
    interleaved so far, either all of them have returned or one of them can
    take its next step. *)
Theorem no_deadlock rs m sched c :
  run_schedule sched (idle m, pool rs) = Some c ->
  Forall answered (snd c) \/ exists i c', sched_step i c = Some c'.
Proof.
  intros Hr. apply pool_ok_progress. apply (pool_ok_reachable _ _ _ _ Hr).
Qed.

Lemma no_deadlock_witness :
  exists c,
    run_schedule [1; 0]%nat
      (idle {[1 := uA]}, pool [DELETE_users_id "1"; POST_users (named "B")])
    = Some c /\
    (Forall answered (snd c) \/ exists i c', sched_step i c = Some c').
Proof.
  eexists. split; [reflexivity|].
  refine (no_deadlock [DELETE_users_id "1"; POST_users (named "B")]
            {[1 := uA]} [1; 0]%nat _ _).
  reflexivity.
Defined.

(** X13.  Every handler returns after at most four actions on the globals:
    a schedule of the goroutines of [rs] that goes through has at most
    [4 * length rs] steps. *)
Theorem schedules_are_bounded rs m sched c :
  run_schedule sched (idle m, pool rs) = Some c ->
  (length sched <= 4 * length rs)%nat.
Proof.
  intros Hr.
  destruct (budgeted_run sched (idle m, pool rs) c _ (budgeted_initial rs) Hr) as (bs & _ & Hs).
  rewrite sum_list_replicate in Hs. lia.
Qed.

Lemma schedules_are_bounded_witness :
  is_Some (run_schedule [1; 0; 1; 1; 1; 0; 0; 0]%nat
             (idle {[1 := uA]},
              pool [DELETE_users_id "1"; POST_users (named "B")])) /\
  (length [1; 0; 1; 1; 1; 0; 0; 0]%nat
   <= 4 * length [DELETE_users_id "1"; POST_users (named "B")])%nat.
Proof.
  split; [eexists; reflexivity|].
  refine (schedules_are_bounded
            [DELETE_users_id "1"; POST_users (named "B")] {[1 := uA]}
            [1; 0; 1; 1; 1; 0; 0; 0]%nat _ _).
  reflexivity.
Defined.

(** X14.  Every request can be answered.  However the goroutines of any
    requests have been interleaved so far, the schedule can be continued
    to one after which every goroutine has returned and the mutex is
    unlocked. *)
Theorem every_run_can_finish rs m sched c :
  run_schedule sched (idle m, pool rs) = Some c ->
  exists sched' m' ts',
    run_schedule (sched ++ sched') (idle m, pool rs) = Some (idle m', ts') /\
    Forall answered ts'.
Proof.
  intros Hr.
  pose proof (pool_ok_reachable _ _ _ _ Hr) as Hok.
  destruct (budgeted_run sched (idle m, pool rs) c _ (budgeted_initial rs) Hr) as (bs & Hb & _).
  destruct (pool_ok_finishes _ c bs Hok Hb (le_n _))
    as (sched' & [g' ts'] & Hr' & Hok' & Hans).
  exists sched', (userCache g'), ts'. split; [|exact Hans].
  rewrite run_schedule_app, Hr, Hr'.
  pose proof (all_answered_unlocked _ Hok' Hans) as Hu. cbn [fst] in Hu.
  destruct g' as [cache mu]. cbn in Hu. subst mu. reflexivity.
Qed.

Lemma every_run_can_finish_witness :
  is_Some (run_schedule [1; 0]%nat
             (idle {[1 := uA]},
              pool [DELETE_users_id "1"; POST_users (named "B")])) /\
  exists sched' m' ts',
    run_schedule ([1; 0]%nat ++ sched')
      (idle {[1 := uA]}, pool [DELETE_users_id "1"; POST_users (named "B")])
    = Some (idle m', ts') /\
    Forall answered ts'.
Proof.
  split; [eexists; reflexivity|].
  refine (every_run_can_finish
            [DELETE_users_id "1"; POST_users (named "B")] {[1 := uA]}
            [1; 0]%nat _ _).
  reflexivity.
Defined.

Lemma mux_keyed r : keyed Unheld None (mux r).
Proof.
  destruct r as [body | pathId | pathId | ]; cbn [mux].
  - unfold createUser. destruct (json.Decode body _) as [u [err|]]; cbn; [exact I|].
    destruct (String.eqb (Name u) ""); cbn; [exact I|].
    intros n. split; [eauto | exact I].
  - unfold getUser. destruct (strconv.Atoi pathId); cbn; [|exact I].
    intros [u|]; cbn; exact I.
  - unfold deleteUser. destruct (strconv.Atoi pathId); cbn; [|exact I].
    intros [u|]; cbn; exact I.
  - exact I.
Qed.

Lemma step_cache t g t' g' :
  step t g = Some (t', g') ->
  userCache g' = userCache g \/ next_access (code t) = Some Write.
Proof.
  unfold step. destruct (code t); cbn; intros Hs; auto;
    repeat match type of Hs with
    | context [with_mutex ?g ?x] =>
        let H := fresh in destruct x eqn:H; cbn in Hs
    end;
    try discriminate; injection Hs as <- <-; auto.
Qed.

Lemma length_current_step t g t' g' :
  length_current g t -> step t g = Some (t', g') -> length_current g' t'.
Proof.
  intros (seen & Hk & Hseen). unfold step, length_current.
  destruct (code t); cbn [keyed] in Hk; intros Hs;
    repeat match type of Hs with
    | context [with_mutex ?g ?x] =>
        let H := fresh in destruct x eqn:H; cbn in Hs
    end;
    try discriminate; injection Hs as <- <-; cbn [holds code userCache with_cache].
  - exists None. split; [exact Hk | discriminate].
  - exists None. split; [exact Hk | discriminate].
  - exists None. split; [exact Hk | discriminate].
  - exists None. split; [exact Hk | discriminate].
  - exists seen. split; [apply Hk | exact Hseen].
  - eexists. split; [apply Hk|].
    intros n. destruct (holds t); try discriminate. intros [= <-]. auto.
  - exists None. split; [apply Hk | discriminate].
  - exists None. split; [exact Hk | discriminate].
Qed.

Lemma lengths_current_step i c c' :
  lengths_current c -> sched_step i c = Some c' -> lengths_current c'.
Proof.
  intros [Hok Hlen] Hs. split; [apply (pool_ok_step _ _ _ Hok Hs)|].
  destruct (sched_step_inv _ _ _ Hs) as (t & t' & Hi & Hst & Hts).
  intros j tj. rewrite Hts. destruct (decide (i = j)) as [<-|Hne].
  - rewrite list_lookup_insert_eq by (eapply lookup_lt_Some; exact Hi).
    intros [= <-]. apply (length_current_step _ _ _ _ (Hlen i t Hi) Hst).
  - rewrite list_lookup_insert_ne by exact Hne. intros Hj.
    destruct (Hlen j tj Hj) as (seen & Hk & Hseen).
    exists seen. split; [exact Hk|]. intros n Hn.
    destruct (Hseen n Hn) as [Hh ->]. split; [exact Hh|].
    destruct (step_cache _ _ _ _ Hst) as [-> | Hw]; [reflexivity|].
    (* the stepping goroutine wrote, so it holds the mutex exclusively;
       so does the one with a pending length: impossible *)
    destruct Hok as [Hall Hag].
    pose proof (Forall_lookup_1 _ _ _ _ Hall Hi) as Hp. cbn beta in Hp.
    assert (Hhi : holds t = Exclusive).
    { destruct (code t); cbn in Hw; try discriminate; cbn in Hp; apply Hp. }
    pose proof (exclusive_alone _ _ i j t tj Hag Hne Hi Hj Hhi). congruence.
Qed.

Lemma lengths_current_reachable m rs sched c :
  run_schedule sched (idle m, pool rs) = Some c -> lengths_current c.
Proof.
  apply (run_schedule_keeps lengths_current lengths_current_step).
  split; [apply pool_ok_initial|]. cbn [fst snd]. intros j t Hj.
  unfold pool in Hj. rewrite list_lookup_fmap in Hj.
  destruct (rs !! j) as [r|]; [|discriminate]. injection Hj as <-.
  exists None. split; [apply mux_keyed | discriminate].
Qed.





(** X16.  The length read and the store of [createUser] are one atomic
    step.  Whatever requests are in flight and however they are
    interleaved, a goroutine about to assign to [userCache] assigns under
    [len(userCache)+1] for the length the cache has at that moment. *)
Theorem store_key_is_current_length rs m sched g ts i t id u k :
  run_schedule sched (idle m, pool rs) = Some (g, ts) ->
  ts !! i = Some t -> code t = MapAssign id u k ->
  id = next_key (userCache g).
Proof.
  intros Hrun Hi Hc.
  destruct (lengths_current_reachable _ _ _ _ Hrun) as [_ Hlen].
  destruct (Hlen i t Hi) as (seen & Hk & Hseen). cbn [fst] in Hseen.
  rewrite Hc in Hk. cbn in Hk. destruct Hk as [(n & Hn & ->) _].
  destruct (Hseen n Hn) as [_ ->]. reflexivity.
Qed.

Lemma store_key_is_current_length_witness :
  exists g ts t id u k,
    run_schedule [0; 0; 1]%nat
      (idle {[1 := uA]}, pool [POST_users (named "B"); DELETE_users_id "1"])
    = Some (g, ts) /\
    ts !! 0%nat = Some t /\ code t = MapAssign id u k /\
    id = next_key (userCache g).
Proof.
  eexists _, _, _, _, _, _.
  split; [reflexivity|]. split; [reflexivity|]. split; [reflexivity|].
  refine (store_key_is_current_length
            [POST_users (named "B"); DELETE_users_id "1"] {[1 := uA]}
            [0; 0; 1]%nat _ _ 0%nat _ _ _ _ eq_refl eq_refl _).
  reflexivity.
Defined.

(** X17.  Two DELETEs of one id can both be answered 204.  For a present
    id there is an interleaving of two [deleteUser] goroutines in which
    both pass the lookup before either takes the lock, and both answer
    204; served one after the other, the second is answered 404. *)
Theorem concurrent_deletes_both_204 m pathId id u :
  strconv.Atoi pathId = inl id -> m !! id = Some u ->
  run_schedule [0; 1; 0; 0; 0; 1; 1; 1]%nat
    (idle m, pool [DELETE_users_id pathId; DELETE_users_id pathId])
  = Some (idle (delete id m),
          [spawn (Ret (WriteHeader StatusNoContent));
           spawn (Ret (WriteHeader StatusNoContent))]) /\
  serve_all [DELETE_users_id pathId; DELETE_users_id pathId] (idle m)
  = Some ([WriteHeader StatusNoContent; user_not_found],
          idle (delete id m)).
Proof.
  intros Ha Hm. split.
  - unfold pool. cbn [map mux]. unfold deleteUser. rewrite Ha.
    cbn. rewrite Hm. cbn. rewrite delete_delete_eq. reflexivity.
  - cbn [serve_all]. unfold serve, mux.
    rewrite (deleteUser_present _ _ _ _ Ha Hm).
    rewrite (deleteUser_absent _ _ _ Ha (lookup_delete_eq m id)).
    reflexivity.
Qed.

Lemma concurrent_deletes_both_204_witness :
  run_schedule [0; 1; 0; 0; 0; 1; 1; 1]%nat
    (idle {[1 := uA; 2 := uB]},
     pool [DELETE_users_id "2"; DELETE_users_id "2"])
  = Some (idle (delete 2 {[1 := uA; 2 := uB]}),
          [spawn (Ret (WriteHeader StatusNoContent));
           spawn (Ret (WriteHeader StatusNoContent))]) /\
  serve_all [DELETE_users_id "2"; DELETE_users_id "2"]
    (idle {[1 := uA; 2 := uB]})
  = Some ([WriteHeader StatusNoContent; user_not_found],
          idle (delete 2 {[1 := uA; 2 := uB]})).
Proof.
  apply (concurrent_deletes_both_204 {[1 := uA; 2 := uB]} "2" 2 uB);
    reflexivity.
Defined.





Lemma one_section_step t g t' g' :
  one_section (holds t) (code t) -> step t g = Some (t', g') ->
  one_section (holds t') (code t').
Proof.
  unfold step. destruct (code t); cbn [one_section]; intros Hd Hs;
    repeat match type of Hs with
    | context [with_mutex ?g ?x] => destruct (with_mutex g x)
    end;
    try discriminate; injection Hs as <- <-; destruct Hd as [Hh Hk];
    cbn [holds code]; auto.
  - destruct Hk as [r ->]. reflexivity.
  - destruct Hk as [r ->]. reflexivity.
Qed.

(** A step of a goroutine in the pool is the same step when it runs
    alone. *)
Lemma step_alone t g t' g' :
  one_section (holds t) (code t) -> step t g = Some (t', g') ->
  exec (code t) (alone (holds t) (userCache g))
  = exec (code t') (alone (holds t') (userCache g')).
Proof.
  unfold step. destruct (code t); cbn [one_section]; intros Hd Hs;
    try discriminate; destruct Hd as [Hh Hk]; rewrite ?Hh in *;
    cbn [exec alone cacheMutex userCache with_mutex] in *.
  - destruct (cacheMutex g) as [[|] [|n]]; cbn in Hs; try discriminate.
    injection Hs as <- <-. reflexivity.
  - destruct (cacheMutex g) as [[|] n]; cbn in Hs; try discriminate.
    injection Hs as <- <-. reflexivity.
  - destruct (cacheMutex g) as [[|] n]; cbn in Hs; try discriminate.
    injection Hs as <- <-. reflexivity.
  - destruct (cacheMutex g) as [w [|n]]; cbn in Hs; try discriminate.
    injection Hs as <- <-. reflexivity.
  - injection Hs as <- <-. reflexivity.
  - injection Hs as <- <-. reflexivity.
  - injection Hs as <- <-. reflexivity.
  - injection Hs as <- <-. reflexivity.
Qed.

Lemma mux_one_section r : is_delete r = false -> one_section Unheld (mux r).
Proof.
  destruct r as [body | pathId | pathId | ]; try discriminate; intros _; cbn [mux].
  - unfold createUser. destruct (json.Decode body _) as [u [err|]]; cbn; [reflexivity|].
    destruct (String.eqb (Name u) ""); cbn; eauto 10.
  - unfold getUser. destruct (strconv.Atoi pathId); cbn; [|reflexivity].
    split; [reflexivity|]. split; [reflexivity|].
    intros [u|]; cbn; eauto.
  - reflexivity.
Qed.

Lemma serve_all_app rs1 : forall rs2 g,
  serve_all (rs1 ++ rs2) g
  = match serve_all rs1 g with
    | Some (resps1, g1) =>
        match serve_all rs2 g1 with
        | Some (resps2, g2) => Some ((resps1 ++ resps2)%list, g2)
        | None => None
        end
    | None => None
    end.
Proof.
  induction rs1 as [|r rs1 IH]; intros rs2 g; cbn [app serve_all].
  - destruct (serve_all rs2 g) as [[? ?]|]; reflexivity.
  - destruct (serve r g) as [[resp g1]|]; [|reflexivity].
    rewrite IH. destruct (serve_all rs1 g1) as [[resps1 g2]|]; [|reflexivity].
    destruct (serve_all rs2 g2) as [[? ?]|]; reflexivity.
Qed.

Lemma answered_pairs_insert_same rs : forall ts i t t',
  ts !! i = Some t -> answer t = None -> answer t' = None ->
  answered_pairs rs (<[i := t']> ts) = answered_pairs rs ts.
Proof.
  induction rs as [|r rs IH]; intros ts i t t' Hi Ht Ht'; [reflexivity|].
  destruct ts as [|a ts]; [discriminate|].
  destruct i as [|i]; cbn in Hi.
  - injection Hi as ->. change (<[0%nat := t']> (t :: ts)) with (t' :: ts).
    cbn [answered_pairs]. rewrite Ht, Ht'. reflexivity.
  - change (<[S i := t']> (a :: ts)) with (a :: <[i := t']> ts).
    cbn [answered_pairs]. rewrite (IH ts i t t' Hi Ht Ht'). reflexivity.
Qed.

Lemma answered_pairs_insert_done rs : forall ts i r t t' resp,
  rs !! i = Some r -> ts !! i = Some t ->
  answer t = None -> answer t' = Some resp ->
  answered_pairs rs (<[i := t']> ts) ≡ₚ (r, resp) :: answered_pairs rs ts.
Proof.
  induction rs as [|r0 rs IH]; intros ts i r t t' resp Hr Hi Ht Ht'; [discriminate|].
  destruct ts as [|a ts]; [discriminate|].
  destruct i as [|i]; cbn in Hr, Hi.
  - injection Hr as ->. injection Hi as ->.
    change (<[0%nat := t']> (t :: ts)) with (t' :: ts).
    cbn [answered_pairs]. rewrite Ht, Ht'. reflexivity.
  - change (<[S i := t']> (a :: ts)) with (a :: <[i := t']> ts).
    cbn [answered_pairs]. pose proof (IH ts i r t t' resp Hr Hi Ht Ht') as HP.
    destruct (answer a).
    + rewrite HP. apply Permutation_swap.
    + exact HP.
Qed.

Lemma answered_pairs_all rs : forall ts resps,
  length ts = length rs ->
  Forall2 (fun t resp => answer t = Some resp) ts resps ->
  answered_pairs rs ts = combine rs resps.
Proof.
  induction rs as [|r rs IH]; intros ts resps Hlen Hall; [reflexivity|].
  destruct Hall as [|t resp ts resps Ht Hall]; [discriminate|].
  cbn [answered_pairs combine]. rewrite Ht. f_equal.
  apply IH; [cbn in Hlen; lia | exact Hall].
Qed.

(** The requests answered before any goroutine has moved are those whose
    handler returns at once; served one after the other they leave the
    cache as it is. *)
Lemma serve_instant r resp c :
  mux r = Ret resp -> serve r (idle c) = Some (resp, idle c).
Proof. unfold serve. intros ->. reflexivity. Qed.

Lemma answered_pairs_pool rs m :
  serve_all (map fst (answered_pairs rs (pool rs))) (idle m)
  = Some (map snd (answered_pairs rs (pool rs)), idle m).
Proof.
  induction rs as [|r rs IH]; [reflexivity|].
  cbn [pool map answered_pairs]. fold (pool rs).
  unfold answer at 1. cbn [spawn code].
  destruct (mux r) eqn:Hm; try exact IH.
  cbn [map fst snd serve_all]. rewrite (serve_instant _ _ _ Hm), IH.
  reflexivity.
Qed.

Lemma step_unanswered t g x : step t g = Some x -> answer t = None.
Proof. unfold step, answer. destruct (code t); [discriminate | reflexivity ..]. Qed.

Lemma one_section_holding {R} (p : prog R) h :
  one_section h p -> h <> Unheld -> forall r, p <> Ret r.
Proof. intros Hs Hh r ->. cbn in Hs. contradiction. Qed.

Lemma holding_unanswered t :
  one_section (holds t) (code t) -> holds t <> Unheld -> answer t = None.
Proof.
  intros Hs Hh. unfold answer. destruct (code t) eqn:Hc; try reflexivity.
  cbn in Hs. contradiction.
Qed.

(** The two kinds of step of a goroutine with one critical section: it
    goes on inside (or into) its section, or it gives the mutex back and
    has returned. *)
Lemma step_classify t g t' g' :
  one_section (holds t) (code t) -> step t g = Some (t', g') ->
  (answer t' = None /\
   ((holds t = Unheld /\ holds t' <> Unheld /\
     sync.writer (cacheMutex g) = false /\ userCache g' = userCache g) \/
    (holds t <> Unheld /\ holds t' = holds t /\
     (userCache g' = userCache g \/ holds t = Exclusive)))) \/
  (exists resp, code t' = Ret resp /\ holds t' = Unheld /\
                holds t <> Unheld /\ userCache g' = userCache g).
Proof.
  intros Hone Hs. pose proof (one_section_step _ _ _ _ Hone Hs) as Hone'.
  revert Hone Hs Hone'. unfold step.
  destruct (code t); cbn [one_section]; intros Hd Hs Hone';
    try discriminate; destruct Hd as [Hh Hk].
  - (* Lock *)
    destruct (cacheMutex g) as [[|] [|n]] eqn:Hm; cbn in Hs; try discriminate.
    injection Hs as <- <-. left. cbn [holds code] in *.
    split; [apply holding_unanswered; [exact Hone' | discriminate]|].
    left. cbn. repeat split; try assumption; discriminate.
  - (* Unlock *)
    destruct (cacheMutex g) as [[|] n] eqn:Hm; cbn in Hs; try discriminate.
    injection Hs as <- <-. right. destruct Hk as [r ->]. exists r.
    cbn. repeat split; congruence.
  - (* RLock *)
    destruct (cacheMutex g) as [[|] n] eqn:Hm; cbn in Hs; try discriminate.
    injection Hs as <- <-. left. cbn [holds code] in *.
    split; [apply holding_unanswered; [exact Hone' | discriminate]|].
    left. cbn. repeat split; try assumption; discriminate.
  - (* RUnlock *)
    destruct (cacheMutex g) as [w [|n]] eqn:Hm; cbn in Hs; try discriminate.
    injection Hs as <- <-. right. destruct Hk as [r ->]. exists r.
    cbn. repeat split; congruence.
  - (* MapIndex *)
    injection Hs as <- <-. left. cbn [holds code] in *.
    assert (holds t <> Unheld) by (destruct (holds t); [discriminate | congruence ..]).
    split; [apply holding_unanswered; assumption|]. right. auto.
  - (* MapLen *)
    injection Hs as <- <-. left. cbn [holds code] in *.
    assert (holds t <> Unheld) by (destruct (holds t); [discriminate | congruence ..]).
    split; [apply holding_unanswered; assumption|]. right. auto.
  - (* MapAssign *)
    injection Hs as <- <-. left. cbn [holds code] in *.
    assert (holds t <> Unheld) by congruence.
    split; [apply holding_unanswered; assumption|]. right. auto.
  - (* MapDelete *)
    injection Hs as <- <-. left. cbn [holds code] in *.
    assert (holds t <> Unheld) by congruence.
    split; [apply holding_unanswered; assumption|]. right. auto.
Qed.

Lemma in_step_with_same_cache cl g g' r t :
  in_step_with cl g r t -> userCache g' = userCache g ->
  in_step_with cl g' r t.
Proof. unfold in_step_with. intros H ->. exact H. Qed.

Lemma in_step_with_unheld cl g cl' g' r t :
  in_step_with cl g r t -> holds t = Unheld -> in_step_with cl' g' r t.
Proof.
  unfold in_step_with. intros [Hone H] Hh. split; [exact Hone|].
  rewrite Hh in *. exact H.
Qed.

Lemma no_writer_no_exclusive g ts :
  mutex_agrees g ts -> sync.writer (cacheMutex g) = false ->
  holders Exclusive ts = 0%nat.
Proof. intros [_ Hw] Hf. rewrite Hf in Hw. exact Hw. Qed.

Lemma shared_no_exclusive g ts i t :
  mutex_agrees g ts -> ts !! i = Some t -> holds t = Shared ->
  holders Exclusive ts = 0%nat.
Proof.
  intros [Hr Hw] Hi Hh. pose proof (holders_lookup _ _ _ _ Hi Hh).
  destruct (sync.writer (cacheMutex g)); lia.
Qed.

Lemma linearized_step rs m i c c' :
  linearized rs m c -> sched_step i c = Some c' -> linearized rs m c'.
Proof.
  intros (Hok & Hlen & lin & cl & Hperm & Hserve & Hcache & Hthreads) Hs.
  pose proof (pool_ok_step _ _ _ Hok Hs) as Hok'.
  destruct (sched_step_inv _ _ _ Hs) as (t & t' & Hi & Hst & Hts).
  destruct c as [g ts], c' as [g' ts']. cbn [fst snd] in *. subst ts'.
  destruct Hok as [Hall Hag].
  assert (Hlt : (i < length ts)%nat) by (eapply lookup_lt_Some; exact Hi).
  destruct (lookup_lt_is_Some_2 rs i ltac:(lia)) as [r Hr].
  destruct (Hthreads i r t Hr Hi) as [Hone Hin].
  pose proof (step_unanswered _ _ _ Hst) as Hna.
  pose proof (one_section_step _ _ _ _ Hone Hst) as Hone'.
  pose proof (step_alone _ _ _ _ Hone Hst) as Halone.
  rewrite Hna in Hin.
  unfold linearized. cbn [fst snd].
  split; [exact Hok'|]. split; [rewrite length_insert; exact Hlen|].
  destruct (step_classify _ _ _ _ Hone Hst)
    as [[Hna' [(Hh & Hh' & Hw & Hc) | (Hh & Hh' & Hc)]] | (resp & Hc' & Hh' & Hh & Hc)].
  - (* the goroutine enters its section *)
    pose proof (no_writer_no_exclusive _ _ Hag Hw) as HE.
    pose proof (Hcache HE) as Hcl.
    exists lin, cl. split; [|split; [exact Hserve|split]].
    + rewrite (answered_pairs_insert_same rs ts i t t' Hi Hna Hna'). exact Hperm.
    + intros _. congruence.
    + intros j rj tj Hrj. destruct (decide (i = j)) as [<-|Hne].
      * rewrite list_lookup_insert_eq by exact Hlt. intros [= <-].
        rewrite Hr in Hrj. injection Hrj as <-.
        split; [exact Hone'|]. rewrite Hna'.
        rewrite Hh in Hin, Halone. rewrite Hin in Halone.
        destruct (holds t'); [contradiction| |];
          rewrite <- Halone, <- Hcl; reflexivity.
      * rewrite list_lookup_insert_ne by exact Hne. intros Hj.
        apply (in_step_with_same_cache cl g); [|exact Hc].
        apply (Hthreads j rj tj Hrj Hj).
  - (* the goroutine goes on inside its section *)
    exists lin, cl. split; [|split; [exact Hserve|split]].
    + rewrite (answered_pairs_insert_same rs ts i t t' Hi Hna Hna'). exact Hperm.
    + rewrite (holders_insert_same Exclusive ts i t t' Hi Hh'). intros HE.
      destruct Hc as [Hc | Hx].
      * rewrite Hc. apply Hcache, HE.
      * pose proof (holders_lookup _ _ _ _ Hi Hx). lia.
    + intros j rj tj Hrj. destruct (decide (i = j)) as [<-|Hne].
      * rewrite list_lookup_insert_eq by exact Hlt. intros [= <-].
        rewrite Hr in Hrj. injection Hrj as <-.
        split; [exact Hone'|]. rewrite Hna', Hh'.
        rewrite Hh' in Halone.
        destruct (holds t); [contradiction| |]; rewrite <- Halone; exact Hin.
      * rewrite list_lookup_insert_ne by exact Hne. intros Hj.
        destruct Hc as [Hc | Hx].
        -- apply (in_step_with_same_cache cl g); [|exact Hc].
           apply (Hthreads j rj tj Hrj Hj).
        -- apply (in_step_with_unheld cl g); [apply (Hthreads j rj tj Hrj Hj)|].
           apply (exclusive_alone g ts i j t tj Hag Hne Hi Hj Hx).
  - (* the goroutine leaves its section and has returned: it is linearized *)
    assert (Hsr : serve r (idle cl) = Some (resp, idle (userCache g))).
    { rewrite Hc', Hh', Hc in Halone. cbn in Halone.
      destruct (holds t); [contradiction| |]; rewrite <- Hin, Halone; reflexivity. }
    assert (Hans' : answer t' = Some resp) by (unfold answer; rewrite Hc'; reflexivity).
    exists (lin ++ [(r, resp)])%list, (userCache g).
    split; [|split; [|split]].
    + rewrite (answered_pairs_insert_done rs ts i r t t' resp Hr Hi Hna Hans').
      rewrite <- Hperm. symmetry. apply Permutation_cons_append.
    + rewrite !map_app. cbn [map fst snd]. rewrite serve_all_app, Hserve.
      cbn [serve_all]. rewrite Hsr. reflexivity.
    + intros _. exact Hc.
    + intros j rj tj Hrj. destruct (decide (i = j)) as [<-|Hne].
      * rewrite list_lookup_insert_eq by exact Hlt. intros [= <-].
        split; [exact Hone'|]. rewrite Hans'. exact I.
      * rewrite list_lookup_insert_ne by exact Hne. intros Hj.
        pose proof (Hthreads j rj tj Hrj Hj) as Hj'.
        destruct (holds t) eqn:Hht; [contradiction| |].
        -- (* a reader left: the cache is the linearized one *)
           pose proof (Hcache (shared_no_exclusive _ _ _ _ Hag Hi Hht)) as Hcl.
           rewrite Hcl. apply (in_step_with_same_cache cl g); assumption.
        -- apply (in_step_with_unheld cl g); [exact Hj'|].
           apply (exclusive_alone g ts i j t tj Hag Hne Hi Hj Hht).
Qed.

Lemma linearized_initial rs m :
  forallb (fun r => negb (is_delete r)) rs = true ->
  linearized rs m (idle m, pool rs).
Proof.
  intros Hnd. split; [apply pool_ok_initial|]. cbn [fst snd].
  split; [unfold pool; apply length_map|].
  exists (answered_pairs rs (pool rs)), m.
  split; [reflexivity|]. split; [apply answered_pairs_pool|].
  split; [reflexivity|].
  intros i r t Hr Hi. unfold pool in Hi.
  rewrite list_lookup_fmap, Hr in Hi. injection Hi as <-.
  assert (Hd : is_delete r = false).
  { rewrite forallb_forall in Hnd.
    apply negb_true_iff, Hnd, list_elem_of_In, list_elem_of_lookup. eauto. }
  split; [apply mux_one_section, Hd|].
  cbn [spawn holds code]. destruct (answer _); [exact I | reflexivity].
Qed.

Lemma linearized_reachable rs m sched c :
  forallb (fun r => negb (is_delete r)) rs = true ->
  run_schedule sched (idle m, pool rs) = Some c -> linearized rs m c.
Proof.
  intros Hnd.
  apply (run_schedule_keeps (linearized rs m)
           (fun i c c' => linearized_step rs m i c c')).
  apply linearized_initial, Hnd.
Qed.

Lemma pool_serialises rs m sched g ts resps :
  forallb (fun r => negb (is_delete r)) rs = true ->
  run_schedule sched (idle m, pool rs) = Some (g, ts) ->
  Forall2 (fun t resp => answer t = Some resp) ts resps ->
  length resps = length rs /\
  exists lin,
    lin ≡ₚ combine rs resps /\
    serve_all (map fst lin) (idle m) = Some (map snd lin, g).
Proof.
  intros Hnd Hrun Hans.
  destruct (linearized_reachable rs m sched (g, ts) Hnd Hrun)
    as (Hok & Hlen & lin & cl & Hperm & Hserve & Hcache & _).
  cbn [fst snd] in *.
  split; [rewrite <- Hlen; symmetry; apply (Forall2_length _ _ _ Hans)|].
  assert (Hall : Forall answered ts).
  { apply Forall_forall. intros t Hin.
    apply list_elem_of_lookup in Hin as [i Hi].
    destruct (Forall2_lookup_l _ _ _ _ _ Hans Hi) as (resp & _ & Hr).
    unfold answered. rewrite Hr. eauto. }
  pose proof (all_answered_unlocked (g, ts) Hok Hall) as Hu. cbn [fst] in Hu.
  destruct Hok as [_ Hag]. cbn [fst snd] in Hag.
  assert (HE : holders Exclusive ts = 0%nat).
  { apply (no_writer_no_exclusive g ts Hag). rewrite Hu. reflexivity. }
  exists lin. split.
  - rewrite Hperm, (answered_pairs_all rs ts resps Hlen Hans). reflexivity.
  - rewrite Hserve. destruct g as [cache mu]. cbn in Hu, Hcache.
    rewrite <- (Hcache HE), Hu. reflexivity.
Qed.

(** X19.  POST and GET are serialised by the mutex.  For requests none of
    which is a DELETE, however their goroutines are interleaved, once all
    have returned the answers and the final cache are those of serving
    the same requests one after the other in some order. *)
Theorem post_and_get_serialise rs m sched g ts resps :
  forallb (fun r => negb (is_delete r)) rs = true ->
  run_schedule sched (idle m, pool rs) = Some (g, ts) ->
  Forall2 (fun t resp => answer t = Some resp) ts resps ->
  exists lin,
    lin ≡ₚ combine rs resps /\
    serve_all (map fst lin) (idle m) = Some (map snd lin, g).
Proof.
  intros Hnd Hrun Hans.
  apply (pool_serialises rs m sched g ts resps Hnd Hrun Hans).
Qed.

Lemma post_and_get_serialise_witness :
  exists lin,
    lin ≡ₚ combine [GET_users_id "2"; POST_users (named "B")]
             [{| StatusCode := StatusOK;
                 ContentType := Some "application/json";
                 Body := Json (json.Object [("name", json.Str "B")]) |};
              WriteHeader StatusNoContent] /\
    serve_all (map fst lin) (idle {[1 := uA]})
    = Some (map snd lin, idle {[1 := uA; 2 := uB]}).
Proof.
  refine (post_and_get_serialise
            [GET_users_id "2"; POST_users (named "B")] {[1 := uA]}
            [1; 1; 1; 1; 0; 0; 0]%nat _ _ _ eq_refl _ _).
  - vm_compute. reflexivity.
  - repeat constructor.
Defined.

Lemma map_fst_combine {A B} (l : list A) : forall (k : list B),
  length k = length l -> map fst (combine l k) = l.
Proof.
  induction l as [|a l IH]; intros [|b k] Hlen; try discriminate; [reflexivity|].
  cbn. f_equal. apply IH. cbn in Hlen. lia.
Qed.

Lemma map_snd_combine {A B} (l : list A) : forall (k : list B),
  length k = length l -> map snd (combine l k) = k.
Proof.
  induction l as [|a l IH]; intros [|b k] Hlen; try discriminate; [reflexivity|].
  cbn. f_equal. apply IH. cbn in Hlen. lia.
Qed.

Lemma accepted_Permutation l1 l2 : l1 ≡ₚ l2 -> accepted l1 = accepted l2.
Proof.
  unfold accepted. induction 1 as [|x l1 l2 _ IH|x y l|l1 l2 l3 _ IH1 _ IH2].
  - reflexivity.
  - cbn. destruct (_ =? _); cbn; lia.
  - cbn. destruct (StatusCode x =? _), (StatusCode y =? _); reflexivity.
  - lia.
Qed.

Lemma no_delete_Permutation l1 l2 :
  l1 ≡ₚ l2 ->
  forallb (fun r => negb (is_delete r)) l1 = true ->
  forallb (fun r => negb (is_delete r)) l2 = true.
Proof.
  intros HP. rewrite !forallb_forall. intros H r Hin.
  apply H. apply list_elem_of_In. rewrite HP. apply list_elem_of_In, Hin.
Qed.

(** X20.  Concurrent POSTs do not collide.  From a cache whose ids are
    exactly 1..len, with no DELETE in flight (and the count of entries
    fitting an [int]), however the goroutines are interleaved, once all
    have returned every old record is still under its id, the ids are
    again exactly 1..len, and the cache has grown by one entry for each
    204: no two accepted POSTs were stored under the same id. *)
Theorem concurrent_posts_do_not_collide rs m sched g ts resps :
  dense m ->
  forallb (fun r => negb (is_delete r)) rs = true ->
  len m + Z.of_nat (length rs) <= GoInt.maxInt ->
  run_schedule sched (idle m, pool rs) = Some (g, ts) ->
  Forall2 (fun t resp => answer t = Some resp) ts resps ->
  exists m',
    g = idle m' /\
    (forall id u, m !! id = Some u -> m' !! id = Some u) /\
    dense m' /\
    len m' = len m + Z.of_nat (accepted resps).
Proof.
  intros Hd Hnd Hmax Hrun Hans.
  destruct (pool_serialises rs m sched g ts resps Hnd Hrun Hans)
    as (Hlen & lin & Hperm & Hserve).
  assert (Hfst : map fst lin ≡ₚ rs).
  { rewrite Hperm, map_fst_combine by exact Hlen. reflexivity. }
  assert (Hsnd : map snd lin ≡ₚ resps).
  { rewrite Hperm, map_snd_combine by exact Hlen. reflexivity. }
  destruct (serve_all_no_delete (map fst lin) m Hd)
    as (resps0 & m' & Hs0 & Hsub & Hd' & Hl).
  - apply (no_delete_Permutation rs); [symmetry; exact Hfst | exact Hnd].
  - rewrite (Permutation_length Hfst). exact Hmax.
  - rewrite Hserve in Hs0. injection Hs0 as <- ->.
    exists m'. split; [reflexivity|].
    split; [intros id u Hu; eapply lookup_weaken; eassumption|].
    split; [exact Hd'|].
    rewrite Hl, (accepted_Permutation _ _ Hsnd). reflexivity.
Qed.

Lemma concurrent_posts_do_not_collide_witness :
  exists m',
    idle {[1 := uA; 2 := uB; 3 := uC]} = idle m' /\
    (forall id u, ({[1 := uA]} : gmap Z User) !! id = Some u -> m' !! id = Some u) /\
    dense m' /\
    len m' = len {[1 := uA]}
             + Z.of_nat (accepted [WriteHeader StatusNoContent;
                                   WriteHeader StatusNoContent]).
Proof.
  refine (concurrent_posts_do_not_collide
            [POST_users (named "C"); POST_users (named "B")] {[1 := uA]}
            [1; 1; 1; 1; 0; 0; 0; 0]%nat _ _ _ _ eq_refl _ eq_refl _).
  - intros id. rewrite lookup_singleton. change (len {[1 := uA]}) with 1.
    case_decide; split; intros H'; try lia; eauto.
    destruct H' as [? [=]].
  - vm_compute. discriminate.
  - repeat constructor.
Defined.

Lemma step_cache_cases t g t' g' :
  step t g = Some (t', g') ->
  userCache g' = userCache g \/
  (exists id u k, code t = MapAssign id u k /\
                  userCache g' = <[id := u]> (userCache g)) \/
  (exists id k, code t = MapDelete id k /\
                userCache g' = delete id (userCache g)).
Proof.
  unfold step. destruct (code t) eqn:Hc; intros Hs;
    repeat match type of Hs with
    | context [with_mutex ?g ?x] =>
        let H := fresh in destruct x eqn:H; cbn in Hs
    end;
    try discriminate; injection Hs as <- <-; cbn; eauto 10.
Qed.

Lemma positive_keys_run sched : forall c c',
  lengths_current c -> positive_keys (userCache (fst c)) ->
  len (userCache (fst c)) + Z.of_nat (length sched) <= GoInt.maxInt ->
  run_schedule sched c = Some c' ->
  positive_keys (userCache (fst c')).
Proof.
  induction sched as [|i sched IH]; intros c c' Hlc Hpos Hmax Hrun.
  - injection Hrun as <-. exact Hpos.
  - cbn [run_schedule] in Hrun.
    destruct (sched_step i c) as [c1|] eqn:Hs; [|discriminate].
    cbn [length] in Hmax. rewrite Nat2Z.inj_succ in Hmax.
    pose proof (lengths_current_step _ _ _ Hlc Hs) as Hlc1.
    destruct (sched_step_inv _ _ _ Hs) as (t & t' & Hi & Hst & _).
    assert (H1 : positive_keys (userCache (fst c1)) /\
                 len (userCache (fst c1)) <= len (userCache (fst c)) + 1).
    { destruct (step_cache_cases _ _ _ _ Hst)
        as [-> | [(id & u & k & Hc & ->) | (id & k & Hc & ->)]].
      - split; [exact Hpos | lia].
      - destruct Hlc as [_ Hlen]. destruct (Hlen i t Hi) as (seen & Hk & Hseen).
        rewrite Hc in Hk. cbn in Hk. destruct Hk as [(n & Hn & ->) _].
        destruct (Hseen n Hn) as [_ ->]. fold (next_key (userCache (fst c))).
        assert (Hlt : len (userCache (fst c)) < GoInt.maxInt) by (unfold len in *; lia).
        split.
        + intros id. rewrite lookup_insert. case_decide as Hid.
          * intros _. subst id. rewrite next_key_small by exact Hlt. unfold len. lia.
          * apply Hpos.
        + unfold len. rewrite map_size_insert.
          destruct (userCache (fst c) !! _); cbn; lia.
      - split.
        + intros id'. rewrite lookup_delete. case_decide; [intros [? [=]] | apply Hpos].
        + unfold len. rewrite map_size_delete.
          destruct (userCache (fst c) !! id); cbn; lia. }
    destruct H1 as [Hpos1 Hlen1].
    apply (IH c1 c' Hlc1 Hpos1); [lia | exact Hrun].
Qed.

(** X21.  Ids stay positive in every interleaving.  From a cache whose ids
    are positive, whatever requests are in flight and however their
    goroutines are interleaved (the entries and four steps per request
    fitting an [int]), every id in the cache is positive. *)
Theorem ids_positive_in_every_interleaving rs m sched g ts :
  positive_keys m ->
  len m + 4 * Z.of_nat (length rs) <= GoInt.maxInt ->
  run_schedule sched (idle m, pool rs) = Some (g, ts) ->
  forall id u, userCache g !! id = Some u -> 0 < id.
Proof.
  intros Hpos Hmax Hrun id u Hu.
  destruct (budgeted_run sched (idle m, pool rs) (g, ts) _
              (budgeted_initial rs) Hrun) as (bs & _ & Hs).
  rewrite sum_list_replicate in Hs.
  apply (positive_keys_run sched (idle m, pool rs) (g, ts)); cbn [fst]; eauto.
  - apply (lengths_current_reachable m rs []). reflexivity.
  - cbn [idle userCache]. lia.
Qed.

Lemma ids_positive_in_every_interleaving_witness :
  run_schedule [0; 1; 1; 1; 1]%nat
    (idle {[1 := uA]}, pool [DELETE_users_id "1"; POST_users (named "B")])
  = Some (idle {[1 := uA; 2 := uB]},
          [{| holds := Unheld;
              code := Lock (MapDelete 1 (Unlock (Ret (WriteHeader StatusNoContent)))) |};
           spawn (Ret (WriteHeader StatusNoContent))]) /\
  userCache (idle {[1 := uA; 2 := uB]}) !! 2 = Some uB /\
  0 < 2.
Proof.
  split; [reflexivity|]. split; [reflexivity|].
  refine (ids_positive_in_every_interleaving
            [DELETE_users_id "1"; POST_users (named "B")] {[1 := uA]}
            [0; 1; 1; 1; 1]%nat (idle {[1 := uA; 2 := uB]}) _ _ _ eq_refl
            2 uB eq_refl).
  - intros id [u Hu]. apply lookup_singleton_Some in Hu as [<- _]. lia.
  - vm_compute. discriminate.
Defined.

(** X22.  A goroutine waits only for the mutex.  However the goroutines of
    any requests are interleaved, a goroutine that cannot take its next
    step has returned or is about to take the mutex: no handler unlocks a
    mutex that it does not hold, and no access to the cache blocks. *)
Theorem only_locking_waits rs m sched g ts i t :
  run_schedule sched (idle m, pool rs) = Some (g, ts) ->
  ts !! i = Some t -> step t g = None ->
  answered t \/ (exists k, code t = Lock k) \/ (exists k, code t = RLock k).
Proof.
  intros Hrun Hi Hst.
  destruct (pool_ok_reachable _ _ _ _ Hrun) as [Hall Hag]. cbn [fst snd] in *.
  pose proof (Forall_lookup_1 _ _ _ _ Hall Hi) as Hp. cbn beta in Hp.
  destruct (answered_dec t) as [Ha | Hna]; [left; exact Ha | right].
  destruct (holds_nothing_dec t) as [Hh | Hh].
  - revert Hst Hp Hna. unfold step, answered, answer.
    destruct (code t); cbn [paired]; intros Hst Hp Hna; eauto;
      try discriminate; try (destruct Hp; congruence).
    contradiction Hna. eauto.
  - destruct (paired_can_step g ts i t Hag Hi Hp Hna (or_introl Hh)) as [x Hx].
    congruence.
Qed.

Lemma only_locking_waits_witness :
  exists g ts t,
    run_schedule [1]%nat
      (idle {[1 := uA]}, pool [GET_users_id "1"; POST_users (named "B")])
    = Some (g, ts) /\
    ts !! 0%nat = Some t /\ step t g = None /\
    (answered t \/ (exists k, code t = Lock k) \/ (exists k, code t = RLock k)).
Proof.
  eexists _, _, _.
  split; [reflexivity|]. split; [reflexivity|]. split; [reflexivity|].
  refine (only_locking_waits
            [GET_users_id "1"; POST_users (named "B")] {[1 := uA]}
            [1]%nat _ _ 0%nat _ eq_refl eq_refl _).
  reflexivity.
Defined.
